(** * nestjs-serverless: the retry executor and the HTTPS request pipeline

    A shallow embedding of [UtilService.retryOnException]
    (source/core/util/util.service.ts) and of [HttpsService]
    (https.service.ts: [setupInstance], [request], [transformParams] and the
    verb shorthands), with the properties the specification states about
    them. *)

From Stdlib Require Import ZArith Lia Ascii.
From Stdlib Require String.
From stdpp Require Import gmap strings pretty list fin_maps.

Local Open Scope string_scope.
Local Open Scope Z_scope.

(** ** JavaScript truthiness of the values the code tests *)

(** [n] as a condition, for an optional number: [undefined] and [0] are
    falsy. *)
Definition truthy_num (n : option Z) : bool :=
  match n with
  | Some z => negb (z =? 0)
  | None => false
  end.

(** [s] as a condition, for an optional string: [undefined] and the empty
    string are falsy. *)
Definition truthy_str (s : option string) : bool :=
  match s with
  | Some EmptyString => false
  | Some _ => true
  | None => false
  end.

(** [a || b] where [a] is an optional number. *)
Definition num_or (a : option Z) (b : Z) : Z :=
  match a with
  | Some z => if z =? 0 then b else z
  | None => b
  end.

(** [a || b] where [a] is an optional string. *)
Definition str_or (a : option string) (b : string) : string :=
  match a with
  | Some EmptyString => b
  | Some s => s
  | None => b
  end.

(** ** Strings as the code handles them

    A string is its sequence of bytes (UTF-8 for text outside ASCII). *)

(** [s.startsWith(pat)] *)
Fixpoint starts_with (pat s : string) : bool :=
  match pat, s with
  | EmptyString, _ => true
  | String a pat', String b s' => if Ascii.eqb a b then starts_with pat' s' else false
  | String _ _, EmptyString => false
  end.

(** [s.includes(pat)] *)
Fixpoint includes (pat s : string) : bool :=
  starts_with pat s ||
  match s with
  | EmptyString => false
  | String _ s' => includes pat s'
  end.

(** [s.replace(new RegExp(pat, 'g'), v)] for a pattern [pat] that is plain
    text and not empty, and a replacement [v] without [$]: the matches are
    taken leftmost first and do not overlap.  [skip] counts the bytes of the
    match in progress that are still to be dropped. *)
Fixpoint replace_from (pat v : string) (skip : nat) (s : string) : string :=
  match s with
  | EmptyString => EmptyString
  | String c s' =>
      match skip with
      | S k => replace_from pat v k s'
      | O =>
          if starts_with pat s
          then v +:+ replace_from pat v (Nat.pred (String.length pat)) s'
          else String c (replace_from pat v O s')
      end
  end.

Definition replace_all (pat v s : string) : string := replace_from pat v O s.

(** The characters that mean something other than themselves in the source
    of a regular expression. *)
Definition regex_special (c : ascii) : bool :=
  let n := Ascii.N_of_ascii c in
  ((n =? 92) || (n =? 94) || (n =? 36) || (n =? 46) || (n =? 124)
   || (n =? 63) || (n =? 42) || (n =? 43) || (n =? 40) || (n =? 41)
   || (n =? 91) || (n =? 93) || (n =? 123) || (n =? 125))%N.

(** A string that, taken as the source of a regular expression, matches
    exactly itself. *)
Fixpoint regex_literal (s : string) : bool :=
  match s with
  | EmptyString => true
  | String c s' => negb (regex_special c) && regex_literal s'
  end.

(** The bytes [encodeURIComponent] leaves as they are:
    [A-Z a-z 0-9 - _ . ! ~ * ' ( )]. *)
Definition uri_unreserved (c : ascii) : bool :=
  let n := Ascii.N_of_ascii c in
  (((65 <=? n) && (n <=? 90)) || ((97 <=? n) && (n <=? 122))
   || ((48 <=? n) && (n <=? 57))
   || (n =? 45) || (n =? 95) || (n =? 46) || (n =? 33) || (n =? 126)
   || (n =? 42) || (n =? 39) || (n =? 40) || (n =? 41))%N.

Definition hex_digit (n : N) : ascii :=
  Ascii.ascii_of_N (if (n <? 10)%N then 48 + n else 55 + n)%N.

(** [%XX], upper case. *)
Definition percent_byte (c : ascii) : string :=
  let n := Ascii.N_of_ascii c in
  String "%" (String (hex_digit (n / 16)%N)
                (String (hex_digit (n mod 16)%N) EmptyString)).

Fixpoint encodeURIComponent (s : string) : string :=
  match s with
  | EmptyString => EmptyString
  | String c s' =>
      if uri_unreserved c then String c (encodeURIComponent s')
      else percent_byte c +:+ encodeURIComponent s'
  end.

(** Scanning [s] from the left, every occurrence of [pat] found is replaced
    by [v] and the scan resumes behind it; every other character is kept. *)
Inductive Replaced (pat v : string) : string -> string -> Prop :=
| Replaced_end : Replaced pat v EmptyString EmptyString
| Replaced_hit b b' :
    Replaced pat v b b' -> Replaced pat v (pat +:+ b) (v +:+ b')
| Replaced_keep c s s' :
    starts_with pat (String c s) = false ->
    Replaced pat v s s' -> Replaced pat v (String c s) (String c s').

(** The keys taken in turn, each one's marker [:key] replaced by the
    encoded value in the URL the keys before it have left. *)
Inductive Templated : list (string * string) -> string -> string -> Prop :=
| Templated_nil u : Templated [] u u
| Templated_cons key value rest u u1 u2 :
    Replaced (":" +:+ key) (encodeURIComponent value) u u1 ->
    Templated rest u1 u2 ->
    Templated ((key, value) :: rest) u u2.

(** * The retry executor *)

Module Util.

Section retry.

(** The world the executor runs in: everything the wrapped method, the
    clock, the timer and the logger can read or change. *)
Variable W : Type.
(** What the method resolves with, and what it rejects with. *)
Variables T E : Type.

(** [new Date().getTime()], in milliseconds. *)
Variable now : W -> Z.
(** [this.halt(ms)]: the world after waiting [ms] milliseconds. *)
Variable halt : Z -> W -> W.

(** The text of a log line, kept structured.  A bound the code prints
    through [bound || '∞'] is [None] when the infinity sign is printed. *)
Inductive LogMsg : Type :=
| StartMsg (methodName : string) (retries timeout : option Z)
| RetryMsg (methodName : string) (e : E) (tentative : Z)
           (retries : option Z) (elapsed : Z) (timeout : option Z)
| FinishMsg (methodName : string).

(** [this.loggerService.debug(msg)]. *)
Variable debug : LogMsg -> W -> W.

Record UtilRetryParams : Type := {
  name : option string;
  method : W -> (E + T) * W;
  retries : option Z;
  timeout : option Z;
  delay : option Z;
  breakIf : option (E -> bool)
}.

Definition with_retries (r : option Z) (p : UtilRetryParams) :=
  {| name := name p; method := method p; retries := r;
     timeout := timeout p; delay := delay p; breakIf := breakIf p |}.

Definition with_timeout (t : option Z) (p : UtilRetryParams) :=
  {| name := name p; method := method p; retries := retries p;
     timeout := t; delay := delay p; breakIf := breakIf p |}.

(** [bound || '∞'] as it is printed. *)
Definition shown (bound : option Z) : option Z :=
  if truthy_num bound then bound else None.

(** [params.retries && tentative > params.retries] *)
Definition retries_exceeded (p : UtilRetryParams) (tentative : Z) : bool :=
  match retries p with
  | Some r => negb (r =? 0) && (tentative >? r)
  | None => false
  end.

(** [params.timeout && elapsed > params.timeout] *)
Definition timeout_exceeded (p : UtilRetryParams) (elapsed : Z) : bool :=
  match timeout p with
  | Some t => negb (t =? 0) && (elapsed >? t)
  | None => false
  end.

(** [params.breakIf?.(e)] *)
Definition break_requested (p : UtilRetryParams) (e : E) : bool :=
  match breakIf p with
  | Some f => f e
  | None => false
  end.

(** The three-way test of the [catch] block: does it [throw e]? *)
Definition gives_up (p : UtilRetryParams) (tentative elapsed : Z) (e : E)
  : bool :=
  if retries_exceeded p tentative then true
  else if timeout_exceeded p elapsed then true
  else break_requested p e.

Inductive Completion : Type :=
| Returned (result : T)
| Thrown (e : E).

(** What a finished run leaves behind.  [attempts] lists what each
    invocation of the method produced, first invocation first. *)
Record Run : Type := {
  completion : Completion;
  attempts : list (E + T);
  world : W
}.

(** The [while (true)] loop.  One unit of fuel is one iteration; [None]
    is a loop still running when the fuel is spent. *)
Fixpoint retry_loop (fuel : nat) (p : UtilRetryParams) (methodName : string)
    (startTime tentative : Z) (seen : list (E + T)) (w : W) : option Run :=
  match fuel with
  | O => None
  | S fuel' =>
      let '(r, w1) := method p w in
      match r with
      | inr result =>
          Some {| completion := Returned result;
                  attempts := seen ++ [r]; world := w1 |}
      | inl e =>
          let elapsed := now w1 - startTime in
          if gives_up p tentative elapsed e then
            Some {| completion := Thrown e;
                    attempts := seen ++ [r]; world := w1 |}
          else
            let tentative' := tentative + 1 in
            let w2 := debug (RetryMsg methodName e tentative'
                               (shown (retries p)) elapsed
                               (shown (timeout p))) w1 in
            let w3 := halt (num_or (delay p) 0) w2 in
            retry_loop fuel' p methodName startTime tentative'
                       (seen ++ [r]) w3
      end
  end.

Definition retryOnException (fuel : nat) (p : UtilRetryParams) (w : W)
  : option Run :=
  let methodName := str_or (name p) "Unnamed" in
  let w1 := debug (StartMsg methodName (shown (retries p))
                     (shown (timeout p))) w in
  let startTime := now w1 in
  match retry_loop fuel p methodName startTime 1 [] w1 with
  | Some r =>
      match completion r with
      | Returned _ =>
          Some {| completion := completion r; attempts := attempts r;
                  world := debug (FinishMsg methodName) (world r) |}
      | Thrown _ => Some r
      end
  | None => None
  end.

(** The stop rule as the specification words it, a bound being "set"
    when the policy carries it. *)
Definition spec_gives_up (p : UtilRetryParams) (tentative elapsed : Z)
    (e : E) : bool :=
  match retries p with Some r => tentative >? r | None => false end
  || match timeout p with Some t => elapsed >? t | None => false end
  || break_requested p e.

(** The stop rule of the code in words: a bound counts when it is there
    and is not zero. *)
Definition stops (p : UtilRetryParams) (tentative elapsed : Z) (e : E)
  : Prop :=
  (exists r, retries p = Some r /\ r <> 0 /\ tentative > r)
  \/ (exists b, timeout p = Some b /\ b <> 0 /\ elapsed > b)
  \/ (exists f, breakIf p = Some f /\ f e = true).

(** The method rejects whenever it is invoked. *)
Definition always_fails (p : UtilRetryParams) : Prop :=
  forall w, exists e w', method p w = (inl e, w').

End retry.

Arguments name {W T E} u.
Arguments method {W T E} u w.
Arguments retries {W T E} u.
Arguments timeout {W T E} u.
Arguments delay {W T E} u.
Arguments breakIf {W T E} u.
Arguments with_retries {W T E} r p.
Arguments with_timeout {W T E} t p.
Arguments retries_exceeded {W T E} p tentative.
Arguments timeout_exceeded {W T E} p elapsed.
Arguments break_requested {W T E} p e.
Arguments gives_up {W T E} p tentative elapsed e.
Arguments spec_gives_up {W T E} p tentative elapsed e.
Arguments stops {W T E} p tentative elapsed e.
Arguments always_fails {W T E} p.
Arguments retry_loop {W T E} now halt debug fuel p methodName startTime tentative seen w.
Arguments retryOnException {W T E} now halt debug fuel p w.
Arguments completion {W T E} r.
Arguments attempts {W T E} r.
Arguments world {W T E} r.
Arguments StartMsg {E} methodName retries timeout.
Arguments RetryMsg {E} methodName e tentative retries elapsed timeout.
Arguments FinishMsg {E} methodName.
Arguments Returned {T E} result.
Arguments Thrown {T E} e.

(** *** A small world to run the executor in

    The world is the clock, in milliseconds.  The method takes one
    millisecond and rejects with the time it was called at; waiting moves
    the clock; logging leaves it alone. *)

Definition tick_now (w : nat) : Z := Z.of_nat w.
Definition tick_halt (ms : Z) (w : nat) : nat := (w + Z.to_nat ms)%nat.
Definition tick_debug (m : LogMsg nat) (w : nat) : nat := w.
Definition tick_method (w : nat) : (nat + unit) * nat := (inl w, S w).

Definition tick_params (r t : option Z) (b : option (nat -> bool))
  : UtilRetryParams nat unit nat :=
  {| name := None; method := tick_method; retries := r; timeout := t;
     delay := None; breakIf := b |}.

Definition tick_run (fuel : nat) (p : UtilRetryParams nat unit nat)
  : option (Run nat unit nat) :=
  retryOnException tick_now tick_halt tick_debug fuel p O.

End Util.

(** * The HTTPS service *)

Module Https.

(** ** JavaScript values and objects *)

(** Objects live in a store and are named by their address, so that two
    names for one object see each other's writes. *)
Definition loc : Type := positive.

Local Unset Elimination Schemes.

(** The values a property holds: scalars, and arrays and objects nested by
    value.  The service copies them and never looks inside. *)
Inductive Val : Type :=
| VStr (s : string)
| VNum (z : Z)
| VBool (b : bool)
| VNull
| VArr (items : list Val)
| VObj (fields : list (string * Val)).

Local Set Elimination Schemes.

(** The own enumerable properties of a plain object. *)
Abbreviation Obj := (gmap string Val).

(** What [data] holds: an object of the store, or a string (the
    stringified form, or a body the caller already serialized). *)
Inductive Body : Type :=
| BObj (l : loc)
| BStr (s : string).

(** [data] as a condition: [undefined] and the empty string are falsy. *)
Definition truthy (d : option Body) : bool :=
  match d with
  | None => false
  | Some (BStr EmptyString) => false
  | Some (BStr _) => true
  | Some (BObj _) => true
  end.

(** The properties [{ ...s }] copies out of a string: one per index. *)
Fixpoint string_spread (i : N) (s : string) : Obj :=
  match s with
  | EmptyString => ∅
  | String c s' =>
      <[pretty i := VStr (String c EmptyString)]> (string_spread (N.succ i) s')
  end.

(** Modelled from the spec: https.enum.ts is not among the sources; the
    return mode is one of DATA and FULL, and the code compares with DATA
    only. *)
Inductive HttpsReturnType : Type := DATA | FULL.

Record CancelToken : Type := { cancelled : bool }.

(** Modelled from the spec: the declaration of the request descriptor
    (HttpsRequestParams, in https.interface.ts) is not among the sources.
    The fields are the ones the service reads and writes; [method] and
    [url] are required, as in the specification's RequestDescriptor.
    [replacements] lists the properties in the order [for ... in] visits
    them, each value by its [toString()]. *)
Record HttpsRequestParams : Type := {
  method : string;
  url : string;
  headers : option loc;
  data : option Body;
  form : option loc;
  params : option loc;
  replacements : option (list (string * string));
  timeout : option Z;
  validateStatus : option (Z -> bool);
  returnType : option HttpsReturnType;
  cancelToken : option CancelToken
}.

Definition set_method (m : string) (p : HttpsRequestParams) :=
  {| method := m; url := url p; headers := headers p; data := data p;
     form := form p; params := params p; replacements := replacements p;
     timeout := timeout p; validateStatus := validateStatus p;
     returnType := returnType p; cancelToken := cancelToken p |}.

Definition set_url (u : string) (p : HttpsRequestParams) :=
  {| method := method p; url := u; headers := headers p; data := data p;
     form := form p; params := params p; replacements := replacements p;
     timeout := timeout p; validateStatus := validateStatus p;
     returnType := returnType p; cancelToken := cancelToken p |}.

Definition set_headers (h : option loc) (p : HttpsRequestParams) :=
  {| method := method p; url := url p; headers := h; data := data p;
     form := form p; params := params p; replacements := replacements p;
     timeout := timeout p; validateStatus := validateStatus p;
     returnType := returnType p; cancelToken := cancelToken p |}.

Definition set_data (d : option Body) (p : HttpsRequestParams) :=
  {| method := method p; url := url p; headers := headers p; data := d;
     form := form p; params := params p; replacements := replacements p;
     timeout := timeout p; validateStatus := validateStatus p;
     returnType := returnType p; cancelToken := cancelToken p |}.

Definition set_form (f : option loc) (p : HttpsRequestParams) :=
  {| method := method p; url := url p; headers := headers p; data := data p;
     form := f; params := params p; replacements := replacements p;
     timeout := timeout p; validateStatus := validateStatus p;
     returnType := returnType p; cancelToken := cancelToken p |}.

Definition set_params (q : option loc) (p : HttpsRequestParams) :=
  {| method := method p; url := url p; headers := headers p; data := data p;
     form := form p; params := q; replacements := replacements p;
     timeout := timeout p; validateStatus := validateStatus p;
     returnType := returnType p; cancelToken := cancelToken p |}.

Definition set_timeout (t : option Z) (p : HttpsRequestParams) :=
  {| method := method p; url := url p; headers := headers p; data := data p;
     form := form p; params := params p; replacements := replacements p;
     timeout := t; validateStatus := validateStatus p;
     returnType := returnType p; cancelToken := cancelToken p |}.

Definition set_cancelToken (c : option CancelToken) (p : HttpsRequestParams) :=
  {| method := method p; url := url p; headers := headers p; data := data p;
     form := form p; params := params p; replacements := replacements p;
     timeout := timeout p; validateStatus := validateStatus p;
     returnType := returnType p; cancelToken := c |}.

(** What a verb shorthand starts from when the caller passes nothing:
    [{ }], whose method and URL the shorthand sets straight away. *)
Definition noParams : HttpsRequestParams :=
  {| method := ""; url := ""; headers := None; data := None; form := None;
     params := None; replacements := None; timeout := None;
     validateStatus := None; returnType := None; cancelToken := None |}.

(** The options of [setupInstance]: the fields of the declared interface
    that the service reads, and [randomizeUserAgent], which it reads
    too. *)
Record HttpsServiceOptions : Type := {
  opt_defaultValidator : option (Z -> bool);
  opt_defaultReturnType : option HttpsReturnType;
  opt_defaultTimeout : option Z;
  opt_baseUrl : option string;
  opt_baseData : option loc;
  opt_baseHeaders : option loc;
  opt_randomizeUserAgent : bool;
  opt_ignoreHttpsErrors : bool
}.

(** Modelled from the spec: https.settings.ts is not among the sources;
    the service reads the default timeout from it, a number of
    milliseconds. *)
Record HttpsSettings : Type := { HTTPS_DEFAULT_TIMEOUT : Z }.

(** What [axios.create] was given.  [validateStatus] is the constant
    [true]: the transport itself never rejects a response for its status. *)
Record AxiosInstance : Type := {
  defaults_timeout : Z;
  rejectUnauthorized : bool
}.

(** The fields of the service; all but [settings] are [undefined] until
    [setupInstance] runs. *)
Record HttpsService : Type := {
  settings : HttpsSettings;
  defaultValidator : option (Z -> bool);
  defaultReturnType : option HttpsReturnType;
  baseUrl : option string;
  baseData : option loc;
  baseHeaders : option loc;
  instance : option AxiosInstance
}.

(** A service as the container hands it out. *)
Definition newHttpsService (s : HttpsSettings) : HttpsService :=
  {| settings := s; defaultValidator := None; defaultReturnType := None;
     baseUrl := None; baseData := None; baseHeaders := None;
     instance := None |}.

(** What the transport answers. *)
Record Response : Type := {
  status : Z;
  res_headers : Obj;
  res_data : Val
}.

(** Modelled from the spec: the timer of the race, [this.wait], is
    inherited from a provider that is not among the sources; like [halt]
    of the retry executor it resolves with no value, once the effective
    timeout has passed.  The race then ends in one of three ways: the
    transport answers first, the timer resolves first, or the transport
    raises first, with a message. *)
Inductive RaceResult : Type :=
| Responded (res : Response)
| TimerFirst
| Raised (message : string).

Inductive ErrorPrefix : Type :=
| RequestTimeout
| RequestFailed
| RequestException.

Definition prefix_text (e : ErrorPrefix) : string :=
  match e with
  | RequestTimeout => "Request timeout"
  | RequestFailed => "Request failed"
  | RequestException => "Request exception"
  end.

(** The object [request] throws inside its exception on a failed call. *)
Record NormalizedError : Type := {
  err_message : string;
  err_config : HttpsRequestParams;
  err_status : option Z;
  err_headers : option Obj;
  err_data : option Val
}.

Inductive Exception : Type :=
| InternalServerErrorException (message : string)
| InternalServerErrorExceptionWith (body : NormalizedError).

Inductive Outcome : Type :=
| ReturnsData (v : Val)
| ReturnsResponse (res : Response)
| Throws (e : Exception).

Section service.

(** The source of randomness behind [new UserAgent()]. *)
Variable Rng : Type.
(** [new UserAgent().toString()]: the string drawn and the source after
    the draw. *)
Variable newUserAgent : Rng -> string * Rng.

(** The store of objects, and the randomness left. *)
Record World : Type := {
  heap : gmap loc Obj;
  rng : Rng
}.

(** [qs.stringify(o)], a library call. *)
Variable qs_stringify : Obj -> string.

(** The race [Promise.race([this.instance(params), this.wait(timeout)])]:
    what the network and the clock make of the request handed to the
    transport. *)
Variable race : HttpsRequestParams -> World -> RaceResult.

(** The properties of the object at [l]. *)
Definition deref (w : World) (l : loc) : Obj := default ∅ (heap w !! l).

(** [{ ...o }] for a reference that may be [undefined]. *)
Definition spread_ref (w : World) (o : option loc) : Obj :=
  match o with
  | Some l => deref w l
  | None => ∅
  end.

(** [{ ...d }] for the body: an object gives its properties, a string
    its characters by index. *)
Definition spread (w : World) (d : option Body) : Obj :=
  match d with
  | Some (BObj l) => deref w l
  | Some (BStr s) => string_spread 0%N s
  | None => ∅
  end.

(** A new object with the properties [o]. *)
Definition alloc (o : Obj) (w : World) : loc * World :=
  let l := fresh (dom (heap w)) in
  (l, {| heap := <[l := o]> (heap w); rng := rng w |}).

(** [l[k] = v] *)
Definition store (l : loc) (k : string) (v : Val) (w : World) : World :=
  {| heap := <[l := <[k := v]> (deref w l)]> (heap w); rng := rng w |}.

(** *** [setupInstance] *)

Definition setupInstance (this : HttpsService) (o : HttpsServiceOptions)
    (w : World) : HttpsService * HttpsServiceOptions * World :=
  let defaultReturnType' := default DATA (opt_defaultReturnType o) in
  let defaultValidator' :=
    match opt_defaultValidator o with
    | Some v => v
    | None => fun s => s <? 400
    end in
  let '(bh, w1) :=
    match opt_baseHeaders o with
    | Some l => (l, w)
    | None => alloc ∅ w
    end in
  let w2 :=
    if opt_randomizeUserAgent o then
      let '(ua, g) := newUserAgent (rng w1) in
      store bh "user-agent" (VStr ua) {| heap := heap w1; rng := g |}
    else w1 in
  let o' :=
    {| opt_defaultValidator := opt_defaultValidator o;
       opt_defaultReturnType := opt_defaultReturnType o;
       opt_defaultTimeout := opt_defaultTimeout o;
       opt_baseUrl := opt_baseUrl o;
       opt_baseData := opt_baseData o;
       opt_baseHeaders := Some bh;
       opt_randomizeUserAgent := opt_randomizeUserAgent o;
       opt_ignoreHttpsErrors := opt_ignoreHttpsErrors o |} in
  let this' :=
    {| settings := settings this;
       defaultValidator := Some defaultValidator';
       defaultReturnType := Some defaultReturnType';
       baseUrl := opt_baseUrl o;
       baseData := opt_baseData o;
       baseHeaders := Some bh;
       instance :=
         Some {| defaults_timeout :=
                   num_or (opt_defaultTimeout o)
                          (HTTPS_DEFAULT_TIMEOUT (settings this));
                 rejectUnauthorized :=
                   negb (opt_ignoreHttpsErrors o) |} |} in
  (this', o', w2).

(** *** [transformParams], block by block *)

(** "Join url, data and headers with respective base", with the line
    before it that gives the descriptor a headers object. *)
Definition joinBases (this : HttpsService) (p : HttpsRequestParams)
    (w : World) : HttpsRequestParams * World :=
  let '(hl, w) :=
    match headers p with
    | Some l => (l, w)
    | None => alloc ∅ w
    end in
  let p := set_headers (Some hl) p in
  let p :=
    if truthy_str (baseUrl this)
    then set_url (default "" (baseUrl this) +:+ url p) p
    else p in
  let '(hl', w) := alloc (deref w hl ∪ spread_ref w (baseHeaders this)) w in
  let p := set_headers (Some hl') p in
  match baseData this with
  | None => (p, w)
  | Some bl =>
      let '(p, w) :=
        if truthy (data p) then
          let '(l, w) := alloc (spread w (data p) ∪ deref w bl) w in
          (set_data (Some (BObj l)) p, w)
        else (p, w) in
      let '(p, w) :=
        match form p with
        | Some fl =>
            let '(l, w) := alloc (deref w fl ∪ deref w bl) w in
            (set_form (Some l) p, w)
        | None => (p, w)
        end in
      match params p with
      | Some ql =>
          let '(l, w) := alloc (deref w ql ∪ deref w bl) w in
          (set_params (Some l) p, w)
      | None => (p, w)
      end
  end.

Definition form_content_type : string := "application/x-www-form-urlencoded".

(** "Automatically stringify forms and set its header".  The descriptor
    has a headers object by now. *)
Definition stringifyForm (p : HttpsRequestParams) (w : World)
  : HttpsRequestParams * World :=
  match form p, headers p with
  | Some fl, Some hl =>
      let w := store hl "content-type" (VStr form_content_type) w in
      (set_data (Some (BStr (qs_stringify (deref w fl)))) p, w)
  | _, _ => (p, w)
  end.

(** One turn of the replacement loop.  The key goes into the regular
    expression as it is; [None] stands for a key that is not plain text
    there, whose matches (or syntax error) are outside this model. *)
Definition replaceOne (u : string) (kv : string * string) : option string :=
  let '(key, value) := kv in
  if regex_literal key
  then Some (replace_all (":" +:+ key) (encodeURIComponent value) u)
  else None.

Fixpoint replaceEach (reps : list (string * string)) (u : string)
  : option string :=
  match reps with
  | [] => Some u
  | kv :: rest =>
      match replaceOne u kv with
      | Some u' => replaceEach rest u'
      | None => None
      end
  end.

(** "Apply URL replacements" *)
Definition applyReplacements (p : HttpsRequestParams)
  : option HttpsRequestParams :=
  match replacements p with
  | Some reps =>
      match replaceEach reps (url p) with
      | Some u => Some (set_url u p)
      | None => None
      end
  | None => Some p
  end.

Definition transformParams (this : HttpsService) (p : HttpsRequestParams)
    (w : World) : option (HttpsRequestParams * World) :=
  let '(p1, w1) := joinBases this p w in
  let '(p2, w2) := stringifyForm p1 w1 in
  match applyReplacements p2 with
  | Some p3 => Some (p3, w2)
  | None => None
  end.

(** *** [request] *)

Definition not_configured : string :=
  "https service must be configured with this.setupInstance()".

(** What a call leaves behind: how it ended, the descriptor object as the
    caller finds it afterwards, the world, and the requests handed to the
    transport. *)
Record Call : Type := {
  outcome : Outcome;
  descriptor : HttpsRequestParams;
  after : World;
  sent : list HttpsRequestParams
}.

(** How the [try] block ends: with [errorPrefix] set, and the response
    if one arrived, or with a response that passed. *)
Inductive Verdict : Type :=
| Failed (errorPrefix : ErrorPrefix) (res : option Response)
| Passed (res : Response).

(** The [try] block, from the race on.  [p] already carries the token. *)
Definition attempt (this : HttpsService) (p : HttpsRequestParams)
    (w : World) : Verdict * HttpsRequestParams :=
  match race p w with
  | Responded res =>
      let validator :=
        match validateStatus p with
        | Some v => Some v
        | None => defaultValidator this
        end in
      match validator with
      | Some v =>
          if negb (v (status res)) then (Failed RequestFailed (Some res), p)
          else (Passed res, p)
      | None =>
          (* calling [undefined] raises inside the [try]; the message
             of that error does not mention a timeout *)
          (Failed RequestException (Some res), p)
      end
  | TimerFirst =>
      (Failed RequestTimeout None,
       set_cancelToken (Some {| cancelled := true |}) p)
  | Raised message =>
      if includes "timeout" message then (Failed RequestTimeout None, p)
      else (Failed RequestException None, p)
  end.

Definition request (this : HttpsService) (p : HttpsRequestParams)
    (w : World) : option Call :=
  match instance this with
  | None =>
      Some {| outcome := Throws (InternalServerErrorException not_configured);
              descriptor := p; after := w; sent := [] |}
  | Some inst =>
      let p := set_timeout
                 (Some (num_or (timeout p) (defaults_timeout inst))) p in
      let rawParams := p in
      match transformParams this p w with
      | None => None
      | Some (p, w) =>
          let p := set_cancelToken (Some {| cancelled := false |}) p in
          let '(verdict, p') := attempt this p w in
          match verdict with
          | Failed errorPrefix res =>
              Some {| outcome :=
                        Throws (InternalServerErrorExceptionWith
                          {| err_message :=
                               prefix_text errorPrefix +:+ ": "
                               +:+ method rawParams +:+ " "
                               +:+ url rawParams;
                             err_config := rawParams;
                             err_status := status <$> res;
                             err_headers := res_headers <$> res;
                             err_data := res_data <$> res |});
                      descriptor := p'; after := w; sent := [p] |}
          | Passed res =>
              let returnType' :=
                match returnType p' with
                | Some t => Some t
                | None => defaultReturnType this
                end in
              Some {| outcome :=
                        match returnType' with
                        | Some DATA => ReturnsData (res_data res)
                        | _ => ReturnsResponse res
                        end;
                      descriptor := p'; after := w; sent := [p] |}
          end
      end
  end.

(** *** The verb shorthands *)

Definition get (this : HttpsService) (u : string) (p : HttpsRequestParams)
    (w : World) : option Call :=
  request this (set_url u (set_method "GET" p)) w.

Definition post (this : HttpsService) (u : string) (p : HttpsRequestParams)
    (w : World) : option Call :=
  request this (set_url u (set_method "POST" p)) w.

Definition put (this : HttpsService) (u : string) (p : HttpsRequestParams)
    (w : World) : option Call :=
  request this (set_url u (set_method "PUT" p)) w.

Definition delete (this : HttpsService) (u : string)
    (p : HttpsRequestParams) (w : World) : option Call :=
  request this (set_url u (set_method "DELETE" p)) w.

(** *** What the properties are stated with *)

(** The reference, if any, names an object of the store. *)
Definition ref_in (w : World) (o : option loc) : Prop :=
  match o with
  | Some l => l ∈ dom (heap w)
  | None => True
  end.

Definition body_in (w : World) (d : option Body) : Prop :=
  match d with
  | Some (BObj l) => l ∈ dom (heap w)
  | _ => True
  end.

(** Every object the service and the descriptor refer to is in the
    store. *)
Definition closed (w : World) (this : HttpsService)
    (p : HttpsRequestParams) : Prop :=
  ref_in w (baseHeaders this) /\ ref_in w (baseData this)
  /\ ref_in w (headers p) /\ body_in w (data p)
  /\ ref_in w (form p) /\ ref_in w (params p).

(** Every replacement key is plain text as a regular expression. *)
Definition keys_literal (p : HttpsRequestParams) : bool :=
  match replacements p with
  | Some reps => forallb (fun kv => regex_literal (fst kv)) reps
  | None => true
  end.

(** [m] is [{ ...base, ...own }]: a key of [own] keeps the value [own]
    gives it, any other key has the value [base] gives it, if any. *)
Definition merged_over (own base m : Obj) : Prop :=
  forall k, m !! k = match own !! k with
                     | Some v => Some v
                     | None => base !! k
                     end.

(** A descriptor read through the store: the properties of the objects
    in place of their addresses. *)
Record View : Type := {
  v_method : string;
  v_url : string;
  v_headers : option Obj;
  v_data : option (string + Obj);
  v_form : option Obj;
  v_params : option Obj;
  v_replacements : option (list (string * string));
  v_timeout : option Z;
  v_validateStatus : option (Z -> bool);
  v_returnType : option HttpsReturnType;
  v_cancelToken : option CancelToken
}.

Definition body_view (w : World) (d : option Body) : option (string + Obj) :=
  match d with
  | Some (BObj l) => Some (inr (deref w l))
  | Some (BStr s) => Some (inl s)
  | None => None
  end.

Definition view (w : World) (p : HttpsRequestParams) : View :=
  {| v_method := method p; v_url := url p;
     v_headers := deref w <$> headers p;
     v_data := body_view w (data p);
     v_form := deref w <$> form p;
     v_params := deref w <$> params p;
     v_replacements := replacements p;
     v_timeout := timeout p;
     v_validateStatus := validateStatus p;
     v_returnType := returnType p;
     v_cancelToken := cancelToken p |}.

(** The bases of the service read through the store. *)
Record BaseView : Type := {
  b_url : option string;
  b_headers : Obj;
  b_data : option Obj
}.

Definition base_view (w : World) (this : HttpsService) : BaseView :=
  {| b_url := baseUrl this;
     b_headers := spread_ref w (baseHeaders this);
     b_data := deref w <$> baseData this |}.

(** [transformParams] on views, block by block: what each block
    computes, the store left out. *)
Definition joinBasesView (b : BaseView) (v : View) : View :=
  {| v_method := v_method v;
     v_url :=
       if truthy_str (b_url b) then default "" (b_url b) +:+ v_url v
       else v_url v;
     v_headers := Some (default ∅ (v_headers v) ∪ b_headers b);
     v_data :=
       match b_data b, v_data v with
       | Some bd, Some (inr o) => Some (inr (o ∪ bd))
       | Some bd, Some (inl (String c s)) =>
           Some (inr (string_spread 0%N (String c s) ∪ bd))
       | _, d => d
       end;
     v_form := (fun o => o ∪ default ∅ (b_data b)) <$> v_form v;
     v_params := (fun o => o ∪ default ∅ (b_data b)) <$> v_params v;
     v_replacements := v_replacements v;
     v_timeout := v_timeout v;
     v_validateStatus := v_validateStatus v;
     v_returnType := v_returnType v;
     v_cancelToken := v_cancelToken v |}.

Definition stringifyFormView (v : View) : View :=
  match v_form v with
  | Some f =>
      {| v_method := v_method v; v_url := v_url v;
         v_headers :=
           Some (<["content-type" := VStr form_content_type]>
                   (default ∅ (v_headers v)));
         v_data := Some (inl (qs_stringify f));
         v_form := v_form v; v_params := v_params v;
         v_replacements := v_replacements v;
         v_timeout := v_timeout v;
         v_validateStatus := v_validateStatus v;
         v_returnType := v_returnType v;
         v_cancelToken := v_cancelToken v |}
  | None => v
  end.

Definition applyReplacementsView (v : View) : option View :=
  match v_replacements v with
  | Some reps =>
      match replaceEach reps (v_url v) with
      | Some u =>
          Some {| v_method := v_method v; v_url := u;
                  v_headers := v_headers v; v_data := v_data v;
                  v_form := v_form v; v_params := v_params v;
                  v_replacements := v_replacements v;
                  v_timeout := v_timeout v;
                  v_validateStatus := v_validateStatus v;
                  v_returnType := v_returnType v;
                  v_cancelToken := v_cancelToken v |}
      | None => None
      end
  | None => Some v
  end.

Definition composeView (b : BaseView) (v : View) : option View :=
  applyReplacementsView (stringifyFormView (joinBasesView b v)).

(** The second world holds all of the first, unchanged, and the same
    randomness. *)
Definition extends (w w' : World) : Prop :=
  heap w ⊆ heap w' /\ rng w' = rng w.

(** The descriptor as [request] copies it into [rawParams]: the caller's,
    with the effective timeout filled in. *)
Definition raw_of (inst : AxiosInstance) (p : HttpsRequestParams) : HttpsRequestParams :=
  set_timeout (Some (num_or (timeout p) (defaults_timeout inst))) p.

(** The descriptor as it is handed to the transport. *)
Definition handed_of (p1 : HttpsRequestParams) : HttpsRequestParams :=
  set_cancelToken (Some {| cancelled := false |}) p1.

(** The error a call ended with, if it threw the error object. *)
Definition thrown (c : option Call) : option NormalizedError :=
  match c with
  | Some {| outcome := Throws (InternalServerErrorExceptionWith e) |} => Some e
  | _ => None
  end.

End service.

Arguments heap {Rng} w.
Arguments rng {Rng} w.
Arguments deref {Rng} w l : simpl never.
Arguments spread_ref {Rng} w o.
Arguments spread {Rng} w d.
Arguments alloc {Rng} o w : simpl never.
Arguments store {Rng} l k v w : simpl never.
Arguments setupInstance {Rng} newUserAgent this o w.
Arguments joinBases {Rng} this p w.
Arguments stringifyForm {Rng} qs_stringify p w.
Arguments transformParams {Rng} qs_stringify this p w.
Arguments attempt {Rng} race this p w.
Arguments request {Rng} qs_stringify race this p w.
Arguments get {Rng} qs_stringify race this u p w.
Arguments post {Rng} qs_stringify race this u p w.
Arguments put {Rng} qs_stringify race this u p w.
Arguments delete {Rng} qs_stringify race this u p w.
Arguments outcome {Rng} c.
Arguments descriptor {Rng} c.
Arguments after {Rng} c.
Arguments sent {Rng} c.
Arguments ref_in {Rng} w o.
Arguments body_in {Rng} w d.
Arguments closed {Rng} w this p.
Arguments body_view {Rng} w d.
Arguments view {Rng} w p.
Arguments base_view {Rng} w this.
Arguments extends {Rng} w w'.
Arguments thrown {Rng} c.

(** *** A small world to run the service in *)

Definition demo_agent (g : nat) : string * nat := ("agent/" +:+ pretty g, S g).

(** A flat form serializer: [key=value] pairs joined by [&]. *)
Definition demo_qs (o : Obj) : string :=
  String.concat "&"
    ((fun kv : string * Val =>
        fst kv +:+ "=" +:+
        match snd kv with
        | VStr s => encodeURIComponent s
        | _ => ""
        end) <$> map_to_list o).

(** A network that answers by the path asked for. *)
Definition demo_race (p : HttpsRequestParams) (w : World nat) : RaceResult :=
  if includes "/slow" (url p) then TimerFirst
  else if includes "/down" (url p) then Raised "connect ECONNREFUSED"
  else if includes "/stall" (url p) then Raised "timeout of 5000ms exceeded"
  else if includes "/missing" (url p) then
    Responded {| status := 404;
                 res_headers := {["content-type" := VStr "text/plain"]};
                 res_data := VStr "not found" |}
  else Responded {| status := 200; res_headers := ∅; res_data := VStr "ok" |}.

Definition demo_world : World nat := {| heap := ∅; rng := 7%nat |}.

Definition demo_options : HttpsServiceOptions :=
  {| opt_defaultValidator := None; opt_defaultReturnType := None;
     opt_defaultTimeout := None; opt_baseUrl := Some "https://api.test";
     opt_baseData := None; opt_baseHeaders := None;
     opt_randomizeUserAgent := true; opt_ignoreHttpsErrors := false |}.

Definition demo_setup
  : HttpsService * HttpsServiceOptions * World nat :=
  setupInstance demo_agent
    (newHttpsService {| HTTPS_DEFAULT_TIMEOUT := 5000 |})
    demo_options demo_world.

Definition demo_service : HttpsService := fst (fst demo_setup).
Definition demo_ready : World nat := snd demo_setup.

Definition demo_get (u : string) : HttpsRequestParams :=
  set_url u (set_method "GET" noParams).

Definition with_replacements (r : list (string * string))
    (p : HttpsRequestParams) : HttpsRequestParams :=
  {| method := method p; url := url p; headers := headers p; data := data p;
     form := form p; params := params p; replacements := Some r;
     timeout := timeout p; validateStatus := validateStatus p;
     returnType := returnType p; cancelToken := cancelToken p |}.

Definition demo_post (u : string) : HttpsRequestParams :=
  set_url u (set_method "POST" noParams).

(** A form and a headers object of the caller's, the latter asking for
    JSON. *)
Definition demo_form : loc * World nat :=
  alloc {["user" := VStr "ann lee"]} demo_ready.

Definition demo_json : loc * World nat :=
  alloc {["content-type" := VStr "application/json"]} (snd demo_form).

Definition demo_signup : HttpsRequestParams :=
  set_headers (Some (fst demo_json))
    (set_form (Some (fst demo_form)) (demo_post "/users")).

Definition demo_signup_world : World nat := snd demo_json.

(** The signup descriptor composed once. *)
Definition demo_composed : HttpsRequestParams * World nat :=
  default (demo_signup, demo_signup_world)
    (transformParams demo_qs demo_service demo_signup demo_signup_world).

End Https.

(** * The provider's retry

    [AbstractProvider.retry] (abstract.provider.ts), the retry loop the
    providers inherit.  It differs from [retryOnException] in its loop
    condition, [while (!result)], and in its abort test, [validateRetry]. *)

Module Provider.

Section retry.

Variable W : Type.
Variables T E : Type.

(** [new Date().getTime()], in milliseconds. *)
Variable now : W -> Z.
(** [this.wait(ms)]: the world after waiting [ms] milliseconds. *)
Variable wait : Z -> W -> W.
(** [!result] is false: the value the method resolved with is truthy. *)
Variable truthy_result : T -> bool.

(** The log lines, kept structured; a bound printed through
    [bound || 'infinite'] is [None] when the word is printed. *)
Inductive LogMsg : Type :=
| RunningMsg (method : string) (retries timeout : option Z)
| RetryMsg (method : string) (e : E) (tentatives : Z)
           (retries : option Z) (elapsed : Z) (timeout : option Z)
| FinishedMsg (method : string).

(** [this.logger.debug(msg)]. *)
Variable debug : LogMsg -> W -> W.

(** [call] is [p.instance[p.method](...p.args)]. *)
Record AbstractRetryParams : Type := {
  method : string;
  call : W -> (E + T) * W;
  retries : option Z;
  timeout : option Z;
  delay : option Z;
  validateRetry : option (E -> bool)
}.

(** [bound || 'infinite'] as it is printed. *)
Definition shown (bound : option Z) : option Z :=
  if truthy_num bound then bound else None.

(** The three-way test of the [catch] block: does it [throw e]? *)
Definition gives_up (p : AbstractRetryParams) (tentatives elapsed : Z)
    (e : E) : bool :=
  if truthy_num (retries p)
     && match retries p with Some r => tentatives >? r | None => false end
  then true
  else if truthy_num (timeout p)
          && match timeout p with Some t => elapsed >? t | None => false end
  then true
  else match validateRetry p with
       | Some f => negb (f e)
       | None => false
       end.

Inductive Completion : Type :=
| Returned (result : T)
| Thrown (e : E).

(** What a finished run leaves behind; [attempts] lists what each
    invocation produced, first invocation first. *)
Record Run : Type := {
  completion : Completion;
  attempts : list (E + T);
  world : W
}.

(** The [while (!result)] loop.  One unit of fuel is one iteration; [None]
    is a loop still running when the fuel is spent. *)
Fixpoint retry_loop (fuel : nat) (p : AbstractRetryParams)
    (startTime tentatives : Z) (seen : list (E + T)) (w : W) : option Run :=
  match fuel with
  | O => None
  | S fuel' =>
      let '(r, w1) := call p w in
      match r with
      | inr result =>
          if truthy_result result then
            Some {| completion := Returned result;
                    attempts := seen ++ [r]; world := w1 |}
          else
            retry_loop fuel' p startTime tentatives (seen ++ [r]) w1
      | inl e =>
          let elapsed := now w1 - startTime in
          if gives_up p tentatives elapsed e then
            Some {| completion := Thrown e;
                    attempts := seen ++ [r]; world := w1 |}
          else
            let tentatives' := tentatives + 1 in
            let w2 := debug (RetryMsg (method p) e tentatives'
                               (shown (retries p)) elapsed
                               (shown (timeout p))) w1 in
            let w3 := wait (num_or (delay p) 0) w2 in
            retry_loop fuel' p startTime tentatives' (seen ++ [r]) w3
      end
  end.

Definition retry (fuel : nat) (p : AbstractRetryParams) (w : W)
  : option Run :=
  let w1 := debug (RunningMsg (method p) (shown (retries p))
                     (shown (timeout p))) w in
  let startTime := now w1 in
  match retry_loop fuel p startTime 1 [] w1 with
  | Some r =>
      match completion r with
      | Returned _ =>
          Some {| completion := completion r; attempts := attempts r;
                  world := debug (FinishedMsg (method p)) (world r) |}
      | Thrown _ => Some r
      end
  | None => None
  end.

(** The method resolves, with a falsy value, whenever it is invoked. *)
Definition always_falsy (p : AbstractRetryParams) : Prop :=
  forall w, exists x w', call p w = (inr x, w') /\ truthy_result x = false.

End retry.

Arguments method {W T E} a.
Arguments call {W T E} a w.
Arguments retries {W T E} a.
Arguments timeout {W T E} a.
Arguments delay {W T E} a.
Arguments validateRetry {W T E} a.
Arguments gives_up {W T E} p tentatives elapsed e.
Arguments retry_loop {W T E} now wait truthy_result debug fuel p startTime
  tentatives seen w.
Arguments retry {W T E} now wait truthy_result debug fuel p w.
Arguments always_falsy {W T E} truthy_result p.
Arguments completion {W T E} r.
Arguments attempts {W T E} r.
Arguments world {W T E} r.
Arguments Returned {T E} result.
Arguments Thrown {T E} e.
Arguments RunningMsg {E} method retries timeout.
Arguments RetryMsg {E} method e tentatives retries elapsed timeout.
Arguments FinishedMsg {E} method.

(** *** A small world to run the provider's retry in

    The world is the clock.  The method takes one millisecond and resolves
    with the time it was called at modulo [m], a number, falsy when zero. *)

Definition beat_call (m : nat) (w : nat) : (string + nat) * nat :=
  (inr (w mod m)%nat, S w).

Definition beat_params (m : nat) (r t : option Z)
  : AbstractRetryParams nat nat string :=
  {| method := "beat"; call := beat_call m; retries := r; timeout := t;
     delay := None; validateRetry := None |}.

Definition beat_run (fuel : nat) (p : AbstractRetryParams nat nat string)
    (w : nat) : option (Run nat nat string) :=
  retry (fun w => Z.of_nat w) (fun ms w => (w + Z.to_nat ms)%nat)
    (fun x => negb (Nat.eqb x 0)) (fun _ w => w) fuel p w.

(** *** The two retry loops side by side *)

(** A log line of [retryOnException] as [retry] words it. *)
Definition to_provider_msg {E : Type} (m : Util.LogMsg E) : LogMsg E :=
  match m with
  | Util.StartMsg n r t => RunningMsg n r t
  | Util.RetryMsg n e k r el t => RetryMsg n e k r el t
  | Util.FinishMsg n => FinishedMsg n
  end.

(** Both still running, or both ended the same way after the same
    invocations in the same world. *)
Definition same_run {W T E : Type} (a : option (Util.Run W T E))
    (b : option (Run W T E)) : Prop :=
  match a, b with
  | Some x, Some y =>
      Util.attempts x = attempts y /\ Util.world x = world y
      /\ match Util.completion x, completion y with
         | Util.Returned u, Returned v => u = v
         | Util.Thrown e, Thrown e' => e = e'
         | _, _ => False
         end
  | None, None => True
  | _, _ => False
  end.

(** The policy of [retryOnException] that [tick_params] builds, as
    parameters of [retry]. *)
Definition tick_as_provider (r t : option Z) (b : option (nat -> bool))
  : AbstractRetryParams nat unit nat :=
  {| method := "Unnamed"; call := Util.tick_method; retries := r;
     timeout := t; delay := None;
     validateRetry := (fun f e => negb (f e)) <$> b |}.

End Provider.

(** * Loading modules by glob

    [UtilService.globToRequire] (util.service.ts). *)

Module Loader.

(** [s] without its first [n] characters. *)
Fixpoint string_drop (n : nat) (s : string) : string :=
  match n, s with
  | O, _ => s
  | S n', String _ s' => string_drop n' s'
  | S _, EmptyString => EmptyString
  end.

(** [s.replace(/^pre/, by)] for a plain-text [pre]. *)
Definition replace_prefix (pre by_ s : string) : string :=
  if starts_with pre s then by_ +:+ string_drop (String.length pre) s else s.

(** [s.match(/suf$/)] for a plain-text [suf]: some tail of [s] is [suf]. *)
Fixpoint ends_with (suf s : string) : bool :=
  if String.eqb s suf then true
  else match s with
       | EmptyString => false
       | String _ s' => ends_with suf s'
       end.

Inductive GlobPath : Type :=
| OnePath (p : string)
| ManyPaths (ps : list string).

Definition glob_error : string := "glob paths must start with './' or '!./'".

(** The callback of [globPath.map]: [None] when it throws. *)
Definition toRoot (p : string) : option string :=
  if starts_with "./" p || starts_with "!./" p
  then Some (replace_prefix "./" "../../"
               (replace_prefix "!./" "!../../" p))
  else None.

(** [globPath.map(...)], thrown out of at the first path that throws. *)
Fixpoint toRoots (ps : list string) : option (list string) :=
  match ps with
  | [] => Some []
  | p :: rest =>
      match toRoot p with
      | None => None
      | Some q =>
          match toRoots rest with
          | None => None
          | Some qs => Some (q :: qs)
          end
      end
  end.

(** The files kept: the [.js] ones when there is one, otherwise all. *)
Definition kept (matchingFiles : list string) : list string :=
  let jsFiles := List.filter (ends_with ".js") matchingFiles in
  if (0 <? length jsFiles)%nat then jsFiles else matchingFiles.

Section loading.

(** What a module exports. *)
Variable Export : Type.
(** [globby.sync(patterns, { cwd: __dirname })] *)
Variable globby_sync : list string -> list string.
(** [require(file)], by the values of its exports in key order. *)
Variable require : string -> list Export.

(** [inl] is the message of the [Error] thrown. *)
Definition globToRequire (globPath : GlobPath) : string + list Export :=
  let globPath :=
    match globPath with
    | OnePath p => [p]
    | ManyPaths ps => ps
    end in
  match toRoots globPath with
  | None => inl glob_error
  | Some globRootPath =>
      let matchingFiles := kept (globby_sync globRootPath) in
      inr (concat (require <$> matchingFiles))
  end.

End loading.

Arguments globToRequire {Export} globby_sync require globPath.

(** *** A small file tree to load from *)

Definition demo_globby (patterns : list string) : list string :=
  if decide (patterns = ["../../**/*.entity.*"; "!../../**/abstract*"])
  then ["../../a/user.entity.js"; "../../a/user.entity.ts";
        "../../a/user.entity.json"]
  else [].

Definition demo_require (file : string) : list string :=
  if String.eqb file "../../a/user.entity.js" then ["UserEntity"; "UserRole"]
  else ["?"].

End Loader.

(** * The server's public address

    [UtilService.getServerIp] (util.service.ts), which asks through the
    injected [HttpsService]. *)

Module ServerIp.
Import Https.

(** A value as a condition. *)
Definition truthy_val (v : Val) : bool :=
  match v with
  | VStr EmptyString => false
  | VStr _ => true
  | VNum z => negb (z =? 0)
  | VBool b => b
  | VNull => false
  | VArr _ => true
  | VObj _ => true
  end.

(** What [httpsService.get] resolved with: the data of the response, or
    the whole response, by the return type in force. *)
Inductive Got : Type :=
| GotData (v : Val)
| GotResponse (res : Response).

(** [this.serverIp] as a condition. *)
Definition truthy_got (g : option Got) : bool :=
  match g with
  | None => false
  | Some (GotData v) => truthy_val v
  | Some (GotResponse _) => true
  end.

Record UtilService : Type := {
  serverIp : option Got;
  httpsService : HttpsService
}.

Definition ipify : string := "https://api64.ipify.org".

Definition ip_failure : string := "failed to acquire server ip address".

Section server_ip.

Variable Rng : Type.
Variable qs_stringify : Obj -> string.
Variable race : HttpsRequestParams -> World Rng -> RaceResult.

(** What a call leaves behind: the value resolved with, the service, the
    lines [loggerService.error] was given, the world and the requests
    handed to the transport. *)
Record IpCall : Type := {
  returned : option Got;
  service : UtilService;
  errors : list (string * Exception);
  ip_after : World Rng;
  ip_sent : list HttpsRequestParams
}.

Definition getServerIp (this : UtilService) (w : World Rng)
  : option IpCall :=
  if truthy_got (serverIp this) then
    Some {| returned := serverIp this; service := this; errors := [];
            ip_after := w; ip_sent := [] |}
  else
    match get qs_stringify race (httpsService this) ipify
            (set_timeout (Some 5000) noParams) w with
    | None => None
    | Some c =>
        match outcome c with
        | ReturnsData v =>
            Some {| returned := Some (GotData v);
                    service := {| serverIp := Some (GotData v);
                                  httpsService := httpsService this |};
                    errors := []; ip_after := after c; ip_sent := sent c |}
        | ReturnsResponse res =>
            Some {| returned := Some (GotResponse res);
                    service := {| serverIp := Some (GotResponse res);
                                  httpsService := httpsService this |};
                    errors := []; ip_after := after c; ip_sent := sent c |}
        | Throws e =>
            Some {| returned := serverIp this; service := this;
                    errors := [(ip_failure, e)];
                    ip_after := after c; ip_sent := sent c |}
        end
    end.

End server_ip.

Arguments returned {Rng} i.
Arguments service {Rng} i.
Arguments errors {Rng} i.
Arguments ip_after {Rng} i.
Arguments ip_sent {Rng} i.
Arguments getServerIp {Rng} qs_stringify race this w.

(** A network that knows the address. *)
Definition ip_race (p : HttpsRequestParams) (w : World nat) : RaceResult :=
  if String.eqb (url p) ipify
  then Responded {| status := 200; res_headers := ∅;
                    res_data := VStr "203.0.113.7" |}
  else Raised "getaddrinfo ENOTFOUND".

(** A service set up without a base URL. *)
Definition plain_setup : HttpsService * HttpsServiceOptions * World nat :=
  setupInstance demo_agent
    (newHttpsService {| HTTPS_DEFAULT_TIMEOUT := 60000 |})
    {| opt_defaultValidator := None; opt_defaultReturnType := None;
       opt_defaultTimeout := None; opt_baseUrl := None;
       opt_baseData := None; opt_baseHeaders := None;
       opt_randomizeUserAgent := false; opt_ignoreHttpsErrors := false |}
    demo_world.

Definition plain_service : HttpsService := fst (fst plain_setup).
Definition plain_ready : World nat := snd plain_setup.

(** The first call on a service that has that client. *)
Definition plain_first : option (IpCall nat) :=
  getServerIp demo_qs ip_race
    {| serverIp := None; httpsService := plain_service |} plain_ready.

End ServerIp.

(** * The key-value cache

    [RedisService] (redis.service.ts) with the settings of
    redis.settings.ts. *)

Module Redis.

Record RedisSettings : Type := {
  REDIS_HOST : option string;
  REDIS_PORT : option Z;
  REDIS_PASSWORD : option string;
  REDIS_DEFAULT_EXPIRATION : Z
}.

(** The settings as the class initializes them, before the environment
    fills in the rest. *)
Definition initialSettings : RedisSettings :=
  {| REDIS_HOST := None; REDIS_PORT := None; REDIS_PASSWORD := None;
     REDIS_DEFAULT_EXPIRATION := 1 * 24 * 60 * 60 * 1000 |}.

(** What [redis.createClient] was given. *)
Record RedisClient : Type := {
  host : option string;
  port : option Z;
  password : option string
}.

(** [redisClient] is [undefined] until [setupRedis] creates it.  The
    settings are not a field: the provider reads them, each time, from
    the application. *)
Record RedisService : Type := {
  redisClient : option RedisClient
}.

Inductive LogLine : Type :=
| Warning (message : string)
| Success (message : string)
| Debug (message : string).

Section redis.

(** The values stored, and what reading one back gives. *)
Variables V J : Type.
Variable JSON_stringify : V -> string.
(** [JSON.parse(reply)]; the reply of a key that is not there is [null]. *)
Variable JSON_parse : option string -> J.

(** The server, and the errors its client calls back with. *)
Variables Server Err : Type.
(** [client.set(key, value, 'PX', ms, callback)]: the error called back
    with, if any. *)
Variable redis_set :
  RedisClient -> string -> string -> Z -> Server -> option Err * Server.
(** [client.get(key, callback)]: the error or the reply called back with. *)
Variable redis_get :
  RedisClient -> string -> Server -> (Err + option string) * Server.

Record World : Type := {
  server : Server;
  log : list LogLine
}.

Definition logged (l : LogLine) (w : World) : World :=
  {| server := server w; log := log w ++ [l] |}.

(** The constructor, that is [setupRedis], under the settings [s]. *)
Definition setupRedis (s : RedisSettings) (w : World) : RedisService * World :=
  if truthy_str (REDIS_HOST s) then
    ({| redisClient := Some {| host := REDIS_HOST s; port := REDIS_PORT s;
                               password := REDIS_PASSWORD s |} |},
     logged (Success "Redis client ENABLED") w)
  else
    ({| redisClient := None |},
     logged (Warning "Redis client DISABLED") w).

(** How a call is rejected: by [checkRedisClient], with the exception
    carrying the message "Redis client is DISABLED", or with the error of
    the client. *)
Inductive Failure : Type :=
| Disabled
| Rejected (err : Err).

Definition setKey (s : RedisSettings) (this : RedisService) (key : string)
    (value : V) (expiration : option Z) (w : World)
  : (Failure + unit) * World :=
  match redisClient this with
  | None => (inl Disabled, w)
  | Some client =>
      let stringValue := JSON_stringify value in
      let w := logged (Debug ("Redis: Setting key " +:+ key +:+ " as "
                              +:+ stringValue +:+ "...")) w in
      let '(err, srv) :=
        redis_set client key stringValue
          (num_or expiration (REDIS_DEFAULT_EXPIRATION s))
          (server w) in
      let w := {| server := srv; log := log w |} in
      match err with
      | Some e => (inl (Rejected e), w)
      | None => (inr tt, w)
      end
  end.

Definition getKey (this : RedisService) (key : string) (w : World)
  : (Failure + J) * World :=
  match redisClient this with
  | None => (inl Disabled, w)
  | Some client =>
      let w := logged (Debug ("Redis: Reading key " +:+ key +:+ "...")) w in
      let '(r, srv) := redis_get client key (server w) in
      let w := {| server := srv; log := log w |} in
      match r with
      | inl e => (inl (Rejected e), w)
      | inr reply => (inr (JSON_parse reply), w)
      end
  end.

End redis.

Arguments server {Server} w.
Arguments log {Server} w.
Arguments logged {Server} l w.
Arguments setupRedis {Server} s w.
Arguments Disabled {Err}.
Arguments Rejected {Err} err.
Arguments setKey {V} JSON_stringify {Server Err} redis_set s this key value
  expiration w.
Arguments getKey {J} JSON_parse {Server Err} redis_get this key w.

(** *** A small server: a map from keys to values with their lifetimes *)

Definition map_set (c : RedisClient) (key value : string) (px : Z)
    (srv : gmap string (string * Z)) : option string * gmap string (string * Z) :=
  (None, <[key := (value, px)]> srv).

Definition map_get (c : RedisClient) (key : string)
    (srv : gmap string (string * Z))
  : (string + option string) * gmap string (string * Z) :=
  (inr (fst <$> srv !! key), srv).

Definition demo_settings : RedisSettings :=
  {| REDIS_HOST := Some "redis.test"; REDIS_PORT := Some 6379;
     REDIS_PASSWORD := Some "secret";
     REDIS_DEFAULT_EXPIRATION := REDIS_DEFAULT_EXPIRATION initialSettings |}.

Definition demo_start : World (gmap string (string * Z)) :=
  {| server := ∅; log := [] |}.

End Redis.

(** * The configuration cache

    [ConfigService] (config.service.ts): [get] and [populateConfig]. *)

Module Config.

(** A variable of the environment handed to the configuration classes:
    a string of [process.env], or the parsed [.env] file, which goes in
    whole under the key [envFile]. *)
Inductive EnvVal : Type :=
| EnvStr (s : string)
| EnvFile (parsed : gmap string string).

(** [{ ...process.env, envFile }] with [envFile = parsed || { }]. *)
Definition envVariables (process_env : gmap string string)
    (parsed : option (gmap string string)) : gmap string EnvVal :=
  <["envFile" := EnvFile (default ∅ parsed)]> (EnvStr <$> process_env).

Definition no_cache : string := "failed to acquire config cache".

Section config.

(** The values of the settings, the configuration classes and the
    validation errors. *)
Variables V Ctor VErr : Type.
(** [plainToClass(constructor, envVariables)], by its properties. *)
Variable plainToClass : Ctor -> gmap string EnvVal -> gmap string V.
(** [validateOrReject(partialConfig, ...)]: what it rejects with, if it
    does. *)
Variable validateOrReject : gmap string V -> option VErr.

(** What every object inherits under a name, if anything. *)
Variable Object_prototype : string -> option V.

(** [get]: [inl] is the message of the exception thrown, [inr None] is
    [undefined]. *)
Definition get (cachedConfig : option (gmap string V)) (variable : string)
  : string + option V :=
  match cachedConfig with
  | None => inl no_cache
  | Some c =>
      inr match c !! variable with
          | Some v => Some v
          | None => Object_prototype variable
          end
  end.

(** The loop over the configuration classes; [inl] is the error the
    process prints before it exits. *)
Fixpoint collect (constructors : list Ctor) (env : gmap string EnvVal)
    (config : gmap string V) : VErr + gmap string V :=
  match constructors with
  | [] => inr config
  | constructor :: rest =>
      let partialConfig := plainToClass constructor env in
      match validateOrReject partialConfig with
      | Some e => inl e
      | None => collect rest env (partialConfig ∪ config)
      end
  end.

(** How [populateConfig] ends: the cache is set, or the process has
    printed an error and exited with a code. *)
Inductive Populated : Type :=
| CacheSet (cachedConfig : option (gmap string V))
| Exited (printed : VErr) (code : Z) (cachedConfig : option (gmap string V)).

Definition populateConfig (constructors : list Ctor)
    (process_env : gmap string string) (parsed : option (gmap string string))
    (cachedConfig : option (gmap string V)) : Populated :=
  match collect constructors (envVariables process_env parsed) ∅ with
  | inr config => CacheSet (Some config)
  | inl e => Exited e 1 cachedConfig
  end.

(** The value the last class that has [variable] gives it. *)
Fixpoint last_given (constructors : list Ctor) (env : gmap string EnvVal)
    (variable : string) : option V :=
  match constructors with
  | [] => None
  | constructor :: rest =>
      match last_given rest env variable with
      | Some v => Some v
      | None => plainToClass constructor env !! variable
      end
  end.

End config.

Arguments get {V} Object_prototype cachedConfig variable.
Arguments collect {V Ctor VErr} plainToClass validateOrReject constructors
  env config.
Arguments populateConfig {V Ctor VErr} plainToClass validateOrReject
  constructors process_env parsed cachedConfig.
Arguments last_given {V Ctor} plainToClass constructors env variable.
Arguments CacheSet {V VErr} cachedConfig.
Arguments Exited {V VErr} printed code cachedConfig.

(** *** Two configuration classes

    The first reads the port and a name, the second the name again, which
    it requires. *)

Definition demo_class (c : bool) (env : gmap string EnvVal)
  : gmap string string :=
  let read k := match env !! k with Some (EnvStr s) => Some s | _ => None end in
  if c then
    match read "APP_NAME" with
    | Some s => {["NAME" := s]}
    | None => ∅
    end
  else
    <["NAME" := "unnamed"]>
      match read "PORT" with
      | Some s => {["PORT" := s]}
      | None => ∅
      end.

Definition demo_validate (partialConfig : gmap string string) : option string :=
  match partialConfig !! "NAME" with
  | Some _ => None
  | None => Some "NAME should not be empty"
  end.

End Config.

(** * How a request ends, in the words of [request] *)

Module HttpsOutcome.
Import Https.

(** [a || b] for two values that are objects or functions when set. *)
Definition first_set {A : Type} (a b : option A) : option A :=
  match a with
  | Some x => Some x
  | None => b
  end.

(** The exception of a failed call: the normalized error thrown inside
    an internal-server-error exception. *)
Definition failure (errorPrefix : ErrorPrefix) (rawParams : HttpsRequestParams)
    (res : option Response) : Outcome :=
  Throws (InternalServerErrorExceptionWith
    {| err_message := prefix_text errorPrefix +:+ ": "
                      +:+ method rawParams +:+ " " +:+ url rawParams;
       err_config := rawParams;
       err_status := status <$> res;
       err_headers := res_headers <$> res;
       err_data := res_data <$> res |}).

(** [returnType === HttpsReturnType.DATA ? res.data : res] *)
Definition shaped (returnType : HttpsReturnType) (res : Response) : Outcome :=
  match returnType with
  | DATA => ReturnsData (res_data res)
  | FULL => ReturnsResponse res
  end.

(** Every character of the string is an ASCII one, so that the string
    has one character per byte. *)
Fixpoint ascii_only (s : string) : bool :=
  match s with
  | EmptyString => true
  | String c s' => (N_of_ascii c <? 128)%N && ascii_only s'
  end.

(** *** A service with base data, and a text body *)

Definition tenant_base : loc * World nat :=
  alloc {["tenant" := VStr "acme"]} demo_world.

Definition tenant_setup : HttpsService * HttpsServiceOptions * World nat :=
  setupInstance demo_agent
    (newHttpsService {| HTTPS_DEFAULT_TIMEOUT := 5000 |})
    {| opt_defaultValidator := None; opt_defaultReturnType := Some FULL;
       opt_defaultTimeout := Some 0; opt_baseUrl := Some "https://api.test";
       opt_baseData := Some (fst tenant_base); opt_baseHeaders := None;
       opt_randomizeUserAgent := true; opt_ignoreHttpsErrors := false |}
    (snd tenant_base).

Definition tenant_service : HttpsService := fst (fst tenant_setup).
Definition tenant_ready : World nat := snd tenant_setup.

Definition text_post : HttpsRequestParams :=
  set_data (Some (BStr "hi")) (demo_post "/notes").

End HttpsOutcome.

(** * The client's address

    [UtilService.getClientIp] (util.service.ts).  A header value is a
    string of one-byte characters. *)

Module ClientIp.
Import Loader.

(** The characters [.] does not match.  The two other line terminators
    of the language are not one-byte characters. *)
Definition line_terminator (c : ascii) : bool :=
  Ascii.eqb c "010" || Ascii.eqb c "013".

(** No character of the string is a line terminator. *)
Fixpoint one_line (s : string) : bool :=
  match s with
  | EmptyString => true
  | String c s' => negb (line_terminator c) && one_line s'
  end.

(** The rest of the lazy group [(.+?)] once it has its first character,
    and the [;] after it: the characters up to the first [;], none of
    them a line terminator. *)
Fixpoint upto_semicolon (s : string) : option string :=
  match s with
  | EmptyString => None
  | String d s' =>
      if Ascii.eqb d ";" then Some EmptyString
      else if line_terminator d then None
      else String d <$> upto_semicolon s'
  end.

(** [(.+?);] at the start of [s]: the group. *)
Definition group_then_semicolon (s : string) : option string :=
  match s with
  | EmptyString => None
  | String c s' =>
      if line_terminator c then None
      else String c <$> upto_semicolon s'
  end.

(** [for=(.+?);] at the start of [s], or, failing that, one more
    character for the lazy [.+?] before it and the same again. *)
Fixpoint for_after_gap (s : string) : option string :=
  let longer :=
    match s with
    | EmptyString => None
    | String d s' => if line_terminator d then None else for_after_gap s'
    end in
  if starts_with "for=" s then
    match group_then_semicolon (string_drop 4 s) with
    | Some ip => Some ip
    | None => longer
    end
  else longer.

(** [.+?for=(.+?);] at the start of [s]. *)
Definition gap_then_for (s : string) : option string :=
  match s with
  | EmptyString => None
  | String c s' => if line_terminator c then None else for_after_gap s'
  end.

(** [/by.+?for=(.+?);/g.exec(s)] on a fresh expression: the group of the
    match that starts leftmost, or [None] for [null]. *)
Fixpoint forwardedIpRegex_exec (s : string) : option string :=
  let later :=
    match s with
    | EmptyString => None
    | String _ s' => forwardedIpRegex_exec s'
    end in
  if starts_with "by" s then
    match gap_then_for (string_drop 2 s) with
    | Some ip => Some ip
    | None => later
    end
  else later.

(** [forwarded] is [req.headers.forwarded], [requestIp] what
    [requestIp.getClientIp(req)] gives, [None] being [null]. *)
Definition getClientIp (forwarded : option string) (requestIp : option string)
  : option string :=
  let forwardedIp :=
    if truthy_str forwarded
    then forwardedIpRegex_exec (default "" forwarded)
    else None in
  match forwardedIp with
  | Some ip => Some ip
  | None => requestIp
  end.

End ClientIp.

(** * Properties *)

(** ** Strings *)

Lemma starts_with_app pat b : starts_with pat (pat +:+ b) = true.
Proof.
  induction pat as [|a pat IH]; simpl; [reflexivity|].
  rewrite Ascii.eqb_refl. exact IH.
Qed.

Lemma starts_with_inv pat s :
  starts_with pat s = true -> exists b, s = pat +:+ b.
Proof.
  revert s. induction pat as [|a pat IH]; intros s H.
  - exists s. reflexivity.
  - destruct s as [|c s]; simpl in H; [discriminate|].
    destruct (Ascii.eqb a c) eqn:Hac; [|discriminate].
    apply Ascii.eqb_eq in Hac as ->.
    destruct (IH s H) as [b ->]. exists b. reflexivity.
Qed.

Lemma starts_with_nil pat :
  pat <> EmptyString -> starts_with pat EmptyString = false.
Proof. destruct pat; [congruence | reflexivity]. Qed.

Lemma append_length s t :
  String.length (s +:+ t) = (String.length s + String.length t)%nat.
Proof. induction s as [|c s IH]; simpl; [reflexivity | rewrite IH; reflexivity]. Qed.

Lemma append_inv_head s t1 t2 : s +:+ t1 = s +:+ t2 -> t1 = t2.
Proof.
  induction s as [|c s IH]; simpl; intros H; [exact H|].
  injection H as H. exact (IH H).
Qed.

(** Dropping the rest of a match. *)
Lemma replace_from_skip pat v x b :
  replace_from pat v (String.length x) (x +:+ b) = replace_from pat v O b.
Proof. induction x as [|c x IH]; simpl; [reflexivity | exact IH]. Qed.

Lemma replace_all_hit pat v b :
  pat <> EmptyString ->
  replace_all pat v (pat +:+ b) = v +:+ replace_all pat v b.
Proof.
  intros Hne. destruct pat as [|a pat]; [congruence|].
  unfold replace_all.
  change (replace_from (String a pat) v O (String a pat +:+ b))
    with (if starts_with (String a pat) (String a pat +:+ b)
          then v +:+ replace_from (String a pat) v (String.length pat) (pat +:+ b)
          else String a (replace_from (String a pat) v O (pat +:+ b))).
  rewrite starts_with_app, replace_from_skip. reflexivity.
Qed.

Lemma replace_all_keep pat v c s :
  starts_with pat (String c s) = false ->
  replace_all pat v (String c s) = String c (replace_all pat v s).
Proof. intros H. unfold replace_all. simpl replace_from. rewrite H. reflexivity. Qed.

(** What the code computes is the left-to-right replacement. *)
Lemma replace_all_Replaced pat v :
  pat <> EmptyString ->
  forall s, Replaced pat v s (replace_all pat v s).
Proof.
  intros Hne s.
  remember (String.length s) as n eqn:Hn.
  revert s Hn. induction n as [n IH] using lt_wf_ind. intros s Hn.
  destruct s as [|c s].
  - apply Replaced_end.
  - destruct (starts_with pat (String c s)) eqn:Hsw.
    + destruct (starts_with_inv _ _ Hsw) as [b Hb]. rewrite Hb.
      rewrite (replace_all_hit _ _ _ Hne). apply Replaced_hit.
      apply (IH (String.length b)); [|reflexivity].
      rewrite Hn, Hb, append_length.
      destruct pat; [congruence | simpl; lia].
    + rewrite (replace_all_keep _ _ _ _ Hsw). apply Replaced_keep; [exact Hsw|].
      apply (IH (String.length s)); [|reflexivity]. rewrite Hn. simpl. lia.
Qed.

(** The replacement relation leaves no choice. *)
Lemma Replaced_functional pat v s r1 r2 :
  pat <> EmptyString ->
  Replaced pat v s r1 -> Replaced pat v s r2 -> r1 = r2.
Proof.
  intros Hne H1. revert r2.
  induction H1 as [|b b' H1 IH|c s s' Hsw H1 IH]; intros r2 H2.
  - inversion H2 as [|b0 b0' H0 Heq|]; [reflexivity|].
    destruct pat; [congruence | discriminate Heq].
  - remember (pat +:+ b) as t eqn:Ht.
    destruct H2 as [|b0 b0' H0|c s s' Hsw H0].
    + destruct pat; [congruence | discriminate Ht].
    + apply append_inv_head in Ht as ->. rewrite (IH _ H0). reflexivity.
    + rewrite Ht, starts_with_app in Hsw. discriminate Hsw.
  - remember (String c s) as t eqn:Ht.
    destruct H2 as [|b0 b0' H0|c0 s0 s0' Hsw0 H0].
    + discriminate Ht.
    + rewrite starts_with_app in Hsw. discriminate Hsw.
    + injection Ht as -> ->. rewrite (IH _ H0). reflexivity.
Qed.

(** A pattern that does not occur is left alone. *)
Lemma replace_all_absent pat v s :
  includes pat s = false -> replace_all pat v s = s.
Proof.
  induction s as [|c s IH]; intros H; [reflexivity|].
  cbn [includes] in H. apply orb_false_iff in H as [Hsw Hin].
  rewrite (replace_all_keep _ _ _ _ Hsw), (IH Hin). reflexivity.
Qed.

Lemma includes_cons pat a s :
  includes pat (String a s) = starts_with pat (String a s) || includes pat s.
Proof. reflexivity. Qed.

Lemma starts_with_single c a s :
  starts_with (String c EmptyString) (String a s) = Ascii.eqb c a.
Proof. simpl. destruct (Ascii.eqb c a); reflexivity. Qed.

(** A hexadecimal digit is one of [0-9 A-F]. *)
Lemma hex_digit_plain n c :
  (n < 16)%N -> c = "$"%char \/ c = ":"%char -> Ascii.eqb c (hex_digit n) = false.
Proof.
  intros Hn Hc. apply Ascii.eqb_neq. intros Heq.
  apply (f_equal Ascii.N_of_ascii) in Heq. unfold hex_digit in Heq.
  destruct (n <? 10)%N eqn:Hlt;
    [apply N.ltb_lt in Hlt | apply N.ltb_ge in Hlt];
    rewrite Ascii.N_ascii_embedding in Heq by lia;
    destruct Hc as [-> | ->]; simpl in Heq; lia.
Qed.

(** The encoded value brings no [$] into the replacement, so none of the
    replacement patterns ([$&], [$1], ...) is in play, and no [:], so it
    cannot start a marker. *)
Lemma encodeURIComponent_plain v c :
  c = "$"%char \/ c = ":"%char ->
  includes (String c EmptyString) (encodeURIComponent v) = false.
Proof.
  intros Hc. induction v as [|a v IH]; [reflexivity|].
  cbn [encodeURIComponent].
  destruct (uri_unreserved a) eqn:Hu.
  - rewrite includes_cons, starts_with_single, IH.
    destruct (Ascii.eqb c a) eqn:Heq; [|reflexivity].
    apply Ascii.eqb_eq in Heq. subst a.
    destruct Hc as [-> | ->]; discriminate Hu.
  - unfold percent_byte.
    change (includes (String c EmptyString)
              (String "%"
                 (String (hex_digit (N_of_ascii a / 16))
                    (String (hex_digit (N_of_ascii a mod 16))
                       (encodeURIComponent v)))) = false).
    rewrite !includes_cons, !starts_with_single, IH.
    rewrite !hex_digit_plain; try exact Hc.
    + destruct Hc as [-> | ->]; reflexivity.
    + apply N.mod_lt. discriminate.
    + apply N.Div0.div_lt_upper_bound.
      pose proof (Ascii.N_ascii_bounded a). lia.
Qed.

(** ** The retry executor *)

Module UtilSpec.
Import Util.

Section retry_facts.

Local Set Default Proof Using "Type".

Context {W T E : Type}.
Variable now : W -> Z.
Variable halt : Z -> W -> W.
Variable debug : LogMsg E -> W -> W.

Local Abbreviation params := (UtilRetryParams W T E).
Local Abbreviation loop := (retry_loop now halt debug).
Local Abbreviation run := (retryOnException now halt debug).

Implicit Types (p : params) (w : W) (e : E) (fuel : nat).

Lemma retries_exceeded_true p t :
  retries_exceeded p t = true
  <-> exists r, retries p = Some r /\ r <> 0 /\ t > r.
Proof.
  unfold retries_exceeded. destruct (retries p) as [r|].
  - rewrite andb_true_iff, negb_true_iff, Z.eqb_neq, Z.gtb_gt. split.
    + intros [? ?]. exists r. auto.
    + intros (r' & [= <-] & ? & ?). auto.
  - split; [discriminate | intros (? & [=] & _)].
Qed.

Lemma timeout_exceeded_true p el :
  timeout_exceeded p el = true
  <-> exists b, timeout p = Some b /\ b <> 0 /\ el > b.
Proof.
  unfold timeout_exceeded. destruct (timeout p) as [b|].
  - rewrite andb_true_iff, negb_true_iff, Z.eqb_neq, Z.gtb_gt. split.
    + intros [? ?]. exists b. auto.
    + intros (b' & [= <-] & ? & ?). auto.
  - split; [discriminate | intros (? & [=] & _)].
Qed.

Lemma break_requested_true p e :
  break_requested p e = true
  <-> exists f, breakIf p = Some f /\ f e = true.
Proof.
  unfold break_requested. destruct (breakIf p) as [f|].
  - split; [intros ?; exists f; auto | intros (f' & [= <-] & ?); auto].
  - split; [discriminate | intros (? & [=] & _)].
Qed.

Lemma gives_up_stops p t el e :
  gives_up p t el e = true <-> stops p t el e.
Proof.
  unfold gives_up, stops.
  rewrite <- retries_exceeded_true, <- timeout_exceeded_true,
    <- break_requested_true.
  destruct (retries_exceeded p t), (timeout_exceeded p el),
    (break_requested p e);
    (split;
     [intros H;
      first [discriminate H | left; reflexivity | right; left; reflexivity
            | right; right; reflexivity]
     | intros [H|[H|H]]; first [reflexivity | discriminate H]]).
Qed.

(** One iteration whose invocation fails. *)
Lemma loop_failure fuel p nm st t seen w e w1 :
  method p w = (inl e, w1) ->
  loop (S fuel) p nm st t seen w =
    if gives_up p t (now w1 - st) e
    then Some {| completion := Thrown e; attempts := seen ++ [inl e];
                 world := w1 |}
    else loop fuel p nm st (t + 1) (seen ++ [inl e])
           (halt (num_or (delay p) 0)
              (debug (RetryMsg nm e (t + 1) (shown (retries p))
                        (now w1 - st) (shown (timeout p))) w1)).
Proof. intros Hm. simpl. rewrite Hm. reflexivity. Qed.

(** One iteration whose invocation succeeds. *)
Lemma loop_success fuel p nm st t seen w x w1 :
  method p w = (inr x, w1) ->
  loop (S fuel) p nm st t seen w =
    Some {| completion := Returned x; attempts := seen ++ [inr x];
            world := w1 |}.
Proof. intros Hm. simpl. rewrite Hm. reflexivity. Qed.

(** With no rule that ever fires, a failing method is retried for as long
    as there is fuel. *)
Lemma loop_unbounded p nm st :
  always_fails p ->
  (forall t el e, gives_up p t el e = false) ->
  forall fuel t seen w, loop fuel p nm st t seen w = None.
Proof.
  intros Hfail Hno. induction fuel as [|fuel IH]; intros t seen w.
  - reflexivity.
  - destruct (Hfail w) as (e & w1 & Hm).
    rewrite (loop_failure _ _ _ _ _ _ _ _ _ Hm), Hno. apply IH.
Qed.

(** A failing method under a retry bound [r] alone: from attempt number
    [t], it takes [r + 1 - t] more failures to reach the bound and one
    more to exceed it. *)
Lemma loop_bounded p nm st r :
  always_fails p ->
  retries p = Some r -> 0 < r ->
  (forall el, timeout_exceeded p el = false) ->
  (forall e, break_requested p e = false) ->
  forall (n : nat) t fuel seen w,
    t + Z.of_nat n = r + 1 -> 0 < t -> (n < fuel)%nat ->
    exists errs e wf,
      length errs = n /\
      loop fuel p nm st t seen w =
        Some {| completion := Thrown e;
                attempts := seen ++ (inl <$> errs) ++ [inl e];
                world := wf |}.
Proof.
  intros Hfail Hr Hr0 Hto Hbr.
  induction n as [|n IH]; intros t fuel seen w Ht Hpos Hfuel.
  - destruct fuel as [|fuel]; [lia|].
    destruct (Hfail w) as (e & w1 & Hm).
    exists [], e, w1. split; [reflexivity|].
    rewrite (loop_failure _ _ _ _ _ _ _ _ _ Hm).
    unfold gives_up, retries_exceeded. rewrite Hr.
    replace (negb (r =? 0)) with true
      by (symmetry; apply negb_true_iff, Z.eqb_neq; lia).
    replace (t >? r) with true by (symmetry; apply Z.gtb_gt; lia).
    reflexivity.
  - destruct fuel as [|fuel]; [lia|].
    destruct (Hfail w) as (e & w1 & Hm).
    rewrite (loop_failure _ _ _ _ _ _ _ _ _ Hm).
    unfold gives_up, retries_exceeded. rewrite Hr, Hto, Hbr.
    replace (t >? r) with false
      by (symmetry; apply not_true_iff_false; rewrite Z.gtb_gt; lia).
    rewrite andb_false_r.
    destruct (IH (t + 1) fuel (seen ++ [inl e])%list
                (halt (num_or (delay p) 0)
                   (debug (RetryMsg nm e (t + 1) (shown (Some r))
                             (now w1 - st) (shown (timeout p))) w1)))
      as (errs & e' & wf & Hlen & Hrun); [lia | lia | lia |].
    exists (e :: errs), e', wf. split; [simpl; lia|].
    rewrite Hrun. rewrite <- app_assoc. reflexivity.
Qed.

(** Two policies that agree on the method, on what they print and on
    when they give up run alike. *)
Lemma loop_ext p q nm st :
  method p = method q ->
  (forall t el e, gives_up p t el e = gives_up q t el e) ->
  shown (retries p) = shown (retries q) ->
  shown (timeout p) = shown (timeout q) ->
  delay p = delay q ->
  forall fuel t seen w, loop fuel p nm st t seen w = loop fuel q nm st t seen w.
Proof.
  intros Hm Hg Hr Ht Hd. induction fuel as [|fuel IH]; intros t seen w.
  - reflexivity.
  - simpl. rewrite <- Hm. destruct (method p w) as [[e|x] w1].
    + rewrite <- Hg, <- Hr, <- Ht, <- Hd.
      destruct (gives_up p t (now w1 - st) e); [reflexivity | apply IH].
    + reflexivity.
Qed.

Lemma run_ext p q :
  name p = name q ->
  method p = method q ->
  (forall t el e, gives_up p t el e = gives_up q t el e) ->
  shown (retries p) = shown (retries q) ->
  shown (timeout p) = shown (timeout q) ->
  delay p = delay q ->
  forall fuel w, run fuel p w = run fuel q w.
Proof.
  intros Hn Hm Hg Hr Ht Hd fuel w. unfold retryOnException.
  rewrite <- Hn, <- Hr, <- Ht.
  rewrite (loop_ext p q _ _ Hm Hg Hr Ht Hd). reflexivity.
Qed.



End retry_facts.

Lemma tick_always_fails r t b : always_fails (tick_params r t b).
Proof. intros w. exists w, (S w). reflexivity. Qed.


Example three_retries_run :
  tick_run 4 (tick_params (Some 3) None None) =
    Some {| completion := Thrown 3%nat;
            attempts := [inl 0%nat; inl 1%nat; inl 2%nat; inl 3%nat];
            world := 4%nat |}.
Proof. reflexivity. Qed.



End UtilSpec.

(** ** The HTTPS service *)

Module HttpsSpec.
Import Https.

Section service_facts.

Local Set Default Proof Using "Type".

Context {Rng : Type}.
Variable newUserAgent : Rng -> string * Rng.
Variable qs_stringify : Obj -> string.
Variable race : HttpsRequestParams -> World Rng -> RaceResult.

Implicit Types (w : World Rng) (p q : HttpsRequestParams)
  (this : HttpsService) (l : loc) (o : Obj).

(** *** The store *)

Lemma extends_refl w : extends w w.
Proof. split; reflexivity. Qed.

Lemma extends_trans w1 w2 w3 :
  extends w1 w2 -> extends w2 w3 -> extends w1 w3.
Proof.
  intros [H1 R1] [H2 R2]. split; [etrans; eassumption | congruence].
Qed.

Lemma extends_dom w w' l :
  extends w w' -> l ∈ dom (heap w) -> l ∈ dom (heap w').
Proof.
  intros [Hsub _] Hl. apply elem_of_dom in Hl as [x Hx].
  apply elem_of_dom. exists x. eapply lookup_weaken; eassumption.
Qed.

Lemma extends_deref w w' l :
  extends w w' -> l ∈ dom (heap w) -> deref w' l = deref w l.
Proof.
  intros [Hsub _] Hl. apply elem_of_dom in Hl as [x Hx].
  unfold deref. rewrite Hx, (lookup_weaken _ _ _ _ Hx Hsub). reflexivity.
Qed.

Lemma extends_spread_ref w w' r :
  extends w w' -> ref_in w r -> spread_ref w' r = spread_ref w r.
Proof.
  destruct r as [l|]; simpl; [apply extends_deref | reflexivity].
Qed.

Lemma extends_ref_in w w' r : extends w w' -> ref_in w r -> ref_in w' r.
Proof. destruct r as [l|]; simpl; [apply extends_dom | trivial]. Qed.

Lemma extends_body_in w w' d : extends w w' -> body_in w d -> body_in w' d.
Proof. destruct d as [[l|s]|]; simpl; [apply extends_dom | trivial..]. Qed.

Lemma extends_body_view w w' d :
  extends w w' -> body_in w d -> body_view w' d = body_view w d.
Proof.
  intros He. destruct d as [[l|s]|]; simpl; [|reflexivity..].
  intros Hl. rewrite (extends_deref _ _ _ He Hl). reflexivity.
Qed.

Lemma extends_content w w' r :
  extends w w' -> ref_in w r -> (deref w' <$> r) = (deref w <$> r).
Proof.
  intros He. destruct r as [l|]; simpl; [|reflexivity].
  intros Hl. rewrite (extends_deref _ _ _ He Hl). reflexivity.
Qed.

(** A new object is at an address nothing yet refers to, holds what it
    was made with, and leaves every other object as it was. *)
Lemma alloc_inv o w l w' :
  alloc o w = (l, w') ->
  (l ∉ dom (heap w)) /\ l ∈ dom (heap w') /\ deref w' l = o /\ extends w w'.
Proof.
  unfold alloc. intros [= <- <-].
  pose proof (is_fresh (dom (heap w))) as Hfresh.
  split; [exact Hfresh|]. split; [|split; [|split]]; simpl.
  - rewrite dom_insert_L. apply elem_of_union_l, elem_of_singleton.
    reflexivity.
  - unfold deref. simpl. rewrite lookup_insert_eq. reflexivity.
  - apply insert_subseteq. apply not_elem_of_dom. exact Hfresh.
  - reflexivity.
Qed.

(** Writing a property of the object at [l] changes that object only. *)
Lemma store_deref l k v w l' :
  deref (store l k v w) l' =
    if decide (l = l') then <[k := v]> (deref w l) else deref w l'.
Proof.
  unfold store, deref at 1. simpl. rewrite lookup_insert.
  destruct (decide (l = l')); reflexivity.
Qed.

Lemma store_dom l k v w : dom (heap (store l k v w)) = {[l]} ∪ dom (heap w).
Proof. unfold store. simpl. apply dom_insert_L. Qed.

(** *** [transformParams] *)

Local Opaque alloc deref store.

Ltac alloc_step :=
  match goal with
  | H : context [alloc ?o ?w] |- _ =>
      let l := fresh "l" in
      let w' := fresh "w" in
      let Ha := fresh "Ha" in
      destruct (alloc o w) as [l w'] eqn:Ha;
      apply alloc_inv in Ha; destruct Ha as (? & ? & ? & ?)
  end.

(** Carry what is known of a world over to the worlds that extend it. *)
Ltac carry :=
  repeat match goal with
  | He : extends ?wa ?wb, Hx : ?x ∈ dom (heap ?wa) |- _ =>
      lazymatch goal with
      | _ : x ∈ dom (heap wb) |- _ => fail
      | _ => pose proof (extends_dom wa wb x He Hx)
      end
  | He : extends ?wa ?wb, Hx : ref_in ?wa ?r |- _ =>
      lazymatch goal with
      | _ : ref_in wb r |- _ => fail
      | _ => pose proof (extends_ref_in wa wb r He Hx)
      end
  end.

(** Read an object in the earliest world that has it. *)
Ltac deref_back :=
  repeat match goal with
  | He : extends ?wa ?wb, Hx : ?x ∈ dom (heap ?wa) |- context [deref ?wb ?x] =>
      rewrite (extends_deref wa wb x He Hx)
  | He : extends ?wa ?wb, Hx : ref_in ?wa ?r |- context [spread_ref ?wb ?r] =>
      rewrite (extends_spread_ref wa wb r He Hx)
  end.

(** Two references are apart when one is in a world the other is new to. *)
Ltac fresh_apart :=
  let Hc := fresh in
  intros Hc; injection Hc as Hc; subst; contradiction.

Create HintDb store.
Hint Resolve extends_refl : store.
Hint Extern 2 (extends _ _) => eapply extends_trans; [eassumption|] : store.

Lemma set_url_if (c : bool) (a : string) p :
  (if c then set_url a p else p) = set_url (if c then a else url p) p.
Proof. destruct c, p; reflexivity. Qed.

Local Opaque spread_ref.

Lemma joinBases_spec this p w p1 w1 :
  closed w this p ->
  joinBases this p w = (p1, w1) ->
  extends w w1
  /\ closed w1 this p1
  /\ (exists hl, headers p1 = Some hl /\ (hl ∉ dom (heap w))
                 /\ hl ∈ dom (heap w1)
                 /\ data p1 <> Some (BObj hl) /\ form p1 <> Some hl
                 /\ params p1 <> Some hl)
  /\ view w1 p1 = joinBasesView (base_view w this) (view w p).
Proof.
  intros (Hbh & Hbd & Hh & Hd & Hf & Hq) Hj.
  unfold joinBases in Hj.
  destruct p as [m u h d f q reps t vs rt ct].
  unfold closed, view, base_view, joinBasesView.
  destruct (baseData this) as [bl|] eqn:Hbl;
  destruct h as [hl|], d as [[dl|[|c ds]]|], f as [fl|], q as [ql|];
  simpl in *;
  repeat (first [progress rewrite !set_url_if in Hj | alloc_step];
          simpl in Hj);
  injection Hj as <- <-; simpl; carry.
  all: split; [eauto 10 with store|].
  all: split; [repeat split; first [assumption | exact I]|].
  all: split;
    [eexists; split; [reflexivity|]; split;
     [first [assumption
            | let Hc := fresh in
              intros Hc; eapply extends_dom in Hc; [|eassumption];
              contradiction]
     | split; [assumption|];
       repeat split; first [discriminate | fresh_apart]]|].
  all: deref_back.
  all: repeat match goal with H : deref _ _ = _ |- _ => rewrite H end.
  all: simpl; deref_back; try reflexivity.
  all: rewrite ?(right_id_L ∅ (∪)); try reflexivity.
Qed.

Local Transparent spread_ref.

Lemma store_extends w w1 l k v :
  extends w w1 -> l ∉ dom (heap w) -> extends w (store l k v w1).
Proof.
  intros [Hsub Hr] Hl. split; [|exact Hr].
  apply map_subseteq_spec. intros i x Hi.
  assert (i <> l) as Hne
    by (intros ->; apply Hl, elem_of_dom; eexists; exact Hi).
  Local Transparent store. unfold store. simpl. Local Opaque store.
  rewrite lookup_insert_ne by congruence.
  eapply lookup_weaken; eassumption.
Qed.

Lemma stringifyForm_spec p1 w1 p2 w2 hl :
  headers p1 = Some hl ->
  data p1 <> Some (BObj hl) -> form p1 <> Some hl -> params p1 <> Some hl ->
  stringifyForm qs_stringify p1 w1 = (p2, w2) ->
  headers p2 = Some hl
  /\ form p2 = form p1 /\ params p2 = params p1
  /\ (forall l, l <> hl -> deref w2 l = deref w1 l)
  /\ dom (heap w1) ⊆ dom (heap w2)
  /\ (form p1 = None -> p2 = p1 /\ w2 = w1)
  /\ (forall fl, form p1 = Some fl ->
        w2 = store hl "content-type" (VStr form_content_type) w1
        /\ data p2 = Some (BStr (qs_stringify (deref w1 fl))))
  /\ view w2 p2 = stringifyFormView qs_stringify (view w1 p1).
Proof.
  intros Hh Hd Hf Hq Hs. unfold stringifyForm in Hs. rewrite Hh in Hs.
  destruct p1 as [m u h d f q reps t vs rt ct]. simpl in *. subst h.
  destruct f as [fl|]; injection Hs as <- <-; simpl.
  - assert (fl <> hl) as Hfl by congruence.
    assert (forall l, l <> hl ->
              deref (store hl "content-type" (VStr form_content_type) w1) l
              = deref w1 l) as Hother.
    { intros l Hl. rewrite store_deref. destruct (decide (hl = l)); congruence. }
    repeat split; try reflexivity; try discriminate.
    + exact Hother.
    + rewrite store_dom. apply union_subseteq_r.
    + rewrite Hother by exact Hfl. congruence.
    + unfold view, stringifyFormView. simpl.
      rewrite store_deref. destruct (decide (hl = hl)) as [_|]; [|congruence].
      rewrite (Hother fl Hfl).
      destruct q as [ql|]; simpl; [|reflexivity].
      rewrite Hother by congruence. reflexivity.
  - repeat split; try reflexivity; try discriminate.
Qed.

Lemma applyReplacements_view w p2 p3 :
  applyReplacements p2 = Some p3 ->
  headers p3 = headers p2 /\ data p3 = data p2 /\ form p3 = form p2
  /\ params p3 = params p2 /\ method p3 = method p2
  /\ applyReplacementsView (view w p2) = Some (view w p3).
Proof.
  unfold applyReplacements, applyReplacementsView. simpl.
  destruct (replacements p2) as [reps|] eqn:Hr.
  - destruct (replaceEach reps (url p2)) as [u|]; [|discriminate].
    intros [= <-]. repeat split; try reflexivity.
    unfold view. simpl. rewrite Hr. reflexivity.
  - intros [= <-]. repeat split; reflexivity.
Qed.

Lemma applyReplacements_none_view w p2 :
  applyReplacements p2 = None -> applyReplacementsView (view w p2) = None.
Proof.
  unfold applyReplacements, applyReplacementsView. simpl.
  destruct (replacements p2) as [reps|]; [|discriminate].
  destruct (replaceEach reps (url p2)); [discriminate | reflexivity].
Qed.

(** With plain-text keys the replacement loop runs to its end. *)
Lemma replaceEach_total reps u :
  forallb (fun kv => regex_literal (fst kv)) reps = true ->
  exists u', replaceEach reps u = Some u'.
Proof.
  revert u. induction reps as [|[k v] reps IH]; intros u H; simpl in *.
  - exists u. reflexivity.
  - apply andb_true_iff in H as [Hk Hrest]. rewrite Hk. apply IH, Hrest.
Qed.

Lemma applyReplacements_total p :
  keys_literal p = true -> exists p', applyReplacements p = Some p'.
Proof.
  unfold keys_literal, applyReplacements.
  destruct (replacements p) as [reps|]; intros H; [|eexists; reflexivity].
  destruct (replaceEach_total reps (url p) H) as [u ->]. eexists; reflexivity.
Qed.

Lemma joinBases_scalars this p w :
  let p1 := (joinBases this p w).1 in
  method p1 = method p
  /\ url p1 = (if truthy_str (baseUrl this)
               then default "" (baseUrl this) +:+ url p else url p)
  /\ replacements p1 = replacements p /\ timeout p1 = timeout p
  /\ validateStatus p1 = validateStatus p /\ returnType p1 = returnType p
  /\ cancelToken p1 = cancelToken p.
Proof.
  unfold joinBases.
  destruct p as [m u h d f q reps t vs rt ct].
  destruct (truthy_str (baseUrl this)), (baseData this),
    h as [hl|], d as [[dl|[|c ds]]|], f as [fl|], q as [ql|]; simpl;
    repeat (match goal with
            | |- context [alloc ?o ?w] => destruct (alloc o w)
            end; simpl);
    repeat split; reflexivity.
Qed.

Lemma stringifyForm_scalars p w :
  let p2 := (stringifyForm qs_stringify p w).1 in
  method p2 = method p /\ url p2 = url p
  /\ replacements p2 = replacements p /\ timeout p2 = timeout p
  /\ validateStatus p2 = validateStatus p /\ returnType p2 = returnType p
  /\ cancelToken p2 = cancelToken p.
Proof.
  unfold stringifyForm.
  destruct (form p), (headers p); simpl; repeat split; reflexivity.
Qed.

Lemma applyReplacements_scalars p p' :
  applyReplacements p = Some p' ->
  method p' = method p /\ replacements p' = replacements p
  /\ timeout p' = timeout p /\ validateStatus p' = validateStatus p
  /\ returnType p' = returnType p /\ cancelToken p' = cancelToken p
  /\ replaceEach (default [] (replacements p)) (url p) = Some (url p').
Proof.
  unfold applyReplacements. destruct (replacements p) as [reps|] eqn:Hr.
  - destruct (replaceEach reps (url p)) as [u|] eqn:Hu; [|discriminate].
    intros [= <-]. simpl. rewrite Hr. repeat split; try reflexivity.
    exact Hu.
  - intros [= <-]. rewrite Hr. repeat split; reflexivity.
Qed.

(** What [transformParams] leaves alone, and what it makes of the URL. *)
Lemma transformParams_scalars this p w p' w' :
  transformParams qs_stringify this p w = Some (p', w') ->
  method p' = method p /\ replacements p' = replacements p
  /\ timeout p' = timeout p /\ validateStatus p' = validateStatus p
  /\ returnType p' = returnType p /\ cancelToken p' = cancelToken p
  /\ replaceEach (default [] (replacements p))
       (if truthy_str (baseUrl this)
        then default "" (baseUrl this) +:+ url p else url p)
     = Some (url p').
Proof.
  unfold transformParams.
  pose proof (joinBases_scalars this p w) as Hj.
  destruct (joinBases this p w) as [p1 w1]. simpl in Hj.
  pose proof (stringifyForm_scalars p1 w1) as Hs.
  destruct (stringifyForm qs_stringify p1 w1) as [p2 w2]. simpl in Hs.
  destruct (applyReplacements p2) as [p3|] eqn:Ha; [|discriminate].
  intros [= <- <-].
  destruct (applyReplacements_scalars p2 p3 Ha)
    as (A1 & A2 & A3 & A4 & A5 & A6 & A7).
  destruct Hs as (S1 & S2 & S3 & S4 & S5 & S6 & S7).
  destruct Hj as (J1 & J2 & J3 & J4 & J5 & J6 & J7).
  rewrite A1, A2, A3, A4, A5, A6, S1, S3, S4, S5, S6, S7,
    J1, J3, J4, J5, J6, J7.
  repeat split; try reflexivity.
  rewrite <- J3, <- S3, <- J2, <- S2. exact A7.
Qed.

(** With plain-text keys [transformParams] returns. *)
Lemma transformParams_total this p w :
  keys_literal p = true ->
  exists p' w', transformParams qs_stringify this p w = Some (p', w').
Proof.
  intros Hk. unfold transformParams.
  pose proof (joinBases_scalars this p w) as (_ & _ & Hj & _).
  destruct (joinBases this p w) as [p1 w1]. simpl in Hj.
  pose proof (stringifyForm_scalars p1 w1) as (_ & _ & Hs & _).
  destruct (stringifyForm qs_stringify p1 w1) as [p2 w2]. simpl in Hs.
  destruct (applyReplacements_total p2) as [p3 ->].
  - unfold keys_literal in *. rewrite Hs, Hj. exact Hk.
  - eexists _, _. reflexivity.
Qed.

(** [transformParams] on a closed world: the world it leaves extends the
    one it found, and what it returns is, read through the store, what
    [composeView] computes. *)
Lemma transformParams_spec this p w p' w' :
  closed w this p ->
  transformParams qs_stringify this p w = Some (p', w') ->
  extends w w' /\ closed w' this p'
  /\ composeView qs_stringify (base_view w this) (view w p)
     = Some (view w' p').
Proof.
  intros Hc Ht. unfold transformParams in Ht.
  destruct (joinBases this p w) as [p1 w1] eqn:Hj.
  destruct (joinBases_spec this p w p1 w1 Hc Hj)
    as (He1 & Hc1 & (hl & Hh & Hfresh & Hin & Hd & Hf & Hq) & Hv1).
  destruct (stringifyForm qs_stringify p1 w1) as [p2 w2] eqn:Hs.
  destruct (stringifyForm_spec p1 w1 p2 w2 hl Hh Hd Hf Hq Hs)
    as (Hh2 & Hf2 & Hq2 & Hother & Hdom & Hnone & Hsome & Hv2).
  destruct (applyReplacements p2) as [p3|] eqn:Ha; [|discriminate].
  injection Ht as <- <-.
  destruct (applyReplacements_view w2 p2 p3 Ha)
    as (Hh3 & Hd3 & Hf3 & Hq3 & Hm3 & Hv3).
  assert (extends w w2) as He2.
  { destruct (form p1) as [fl|] eqn:Hfl.
    - destruct (Hsome fl eq_refl) as [-> _]. apply store_extends; assumption.
    - destruct (Hnone eq_refl) as [_ ->]. exact He1. }
  split; [exact He2|]. split.
  - destruct Hc as (Hbh & Hbd & _).
    destruct Hc1 as (_ & _ & Hh1 & Hd1 & Hf1 & Hq1).
    unfold closed. rewrite Hh3, Hd3, Hf3, Hq3, Hh2, Hf2, Hq2.
    repeat split.
    + eapply extends_ref_in; eassumption.
    + eapply extends_ref_in; eassumption.
    + simpl. apply Hdom, Hin.
    + destruct (form p1) as [fl|] eqn:Hfl.
      * destruct (Hsome fl eq_refl) as [_ ->]. exact I.
      * destruct (Hnone eq_refl) as [-> _].
        destruct (data p1) as [[dl|?]|]; simpl in *; auto.
    + destruct (form p1) as [fl|]; simpl in *; auto.
    + destruct (params p1) as [ql|]; simpl in *; auto.
  - unfold composeView. rewrite <- Hv1, <- Hv2. exact Hv3.
Qed.

(** *** [request] *)

(** A configured call, once the race has ended some way. *)
Lemma request_configured this inst p w p1 w1 :
  instance this = Some inst ->
  transformParams qs_stringify this (raw_of inst p) w = Some (p1, w1) ->
  request qs_stringify race this p w =
    let '(verdict, p') := attempt race this (handed_of p1) w1 in
    match verdict with
    | Failed errorPrefix res =>
        Some {| outcome :=
                  Throws (InternalServerErrorExceptionWith
                    {| err_message :=
                         prefix_text errorPrefix +:+ ": "
                         +:+ method p +:+ " " +:+ url p;
                       err_config := raw_of inst p;
                       err_status := status <$> res;
                       err_headers := res_headers <$> res;
                       err_data := res_data <$> res |});
                descriptor := p'; after := w1; sent := [handed_of p1] |}
    | Passed res =>
        Some {| outcome :=
                  match match returnType p' with
                        | Some t => Some t
                        | None => defaultReturnType this
                        end with
                  | Some DATA => ReturnsData (res_data res)
                  | _ => ReturnsResponse res
                  end;
                descriptor := p'; after := w1; sent := [handed_of p1] |}
    end.
Proof.
  intros Hi Ht. unfold request. rewrite Hi.
  fold (raw_of inst p). rewrite Ht. reflexivity.
Qed.

(** C8.  On a service whose [instance] is not set, and a service that
    [setupInstance] never ran on is one, [request] throws the
    "must be configured" exception at once: the descriptor is as the
    caller passed it, the world is as it was, nothing went to the
    transport.  The shorthands do the same after setting the method and
    the URL. *)
Theorem request_requires_setup this p w u s :
  instance this = None ->
  instance (newHttpsService s) = None
  /\ request qs_stringify race this p w =
       Some {| outcome := Throws (InternalServerErrorException
                 "https service must be configured with this.setupInstance()");
               descriptor := p; after := w; sent := [] |}
  /\ get qs_stringify race this u p w =
       Some {| outcome := Throws (InternalServerErrorException
                 "https service must be configured with this.setupInstance()");
               descriptor := set_url u (set_method "GET" p);
               after := w; sent := [] |}
  /\ post qs_stringify race this u p w =
       Some {| outcome := Throws (InternalServerErrorException
                 "https service must be configured with this.setupInstance()");
               descriptor := set_url u (set_method "POST" p);
               after := w; sent := [] |}
  /\ put qs_stringify race this u p w =
       Some {| outcome := Throws (InternalServerErrorException
                 "https service must be configured with this.setupInstance()");
               descriptor := set_url u (set_method "PUT" p);
               after := w; sent := [] |}
  /\ delete qs_stringify race this u p w =
       Some {| outcome := Throws (InternalServerErrorException
                 "https service must be configured with this.setupInstance()");
               descriptor := set_url u (set_method "DELETE" p);
               after := w; sent := [] |}.
Proof.
  intros Hi. unfold get, post, put, delete, request. rewrite Hi.
  repeat split; reflexivity.
Qed.


(** C6.  [setupInstance] without a validator installs [status < 400].
    Under that validator, and with none in the descriptor, a response
    with status 404 makes the call fail with "Request failed", and the
    error carries the status, the headers and the data of the response.
    So does any response whose status is 400 or more, and a response
    whose status is less is not turned into an error. *)
Theorem default_validator_rejects_404 this0 opts w0 this inst p w p1 w1 res :
  opt_defaultValidator opts = None ->
  this = (setupInstance newUserAgent this0 opts w0).1.1 ->
  instance this = Some inst ->
  validateStatus p = None ->
  transformParams qs_stringify this (raw_of inst p) w = Some (p1, w1) ->
  race (handed_of p1) w1 = Responded res ->
  defaultValidator this = Some (fun s => s <? 400)
  /\ (status res = 404 ->
      request qs_stringify race this p w =
        Some {| outcome :=
                  Throws (InternalServerErrorExceptionWith
                    {| err_message :=
                         "Request failed: " +:+ method p +:+ " " +:+ url p;
                       err_config := raw_of inst p;
                       err_status := Some 404;
                       err_headers := Some (res_headers res);
                       err_data := Some (res_data res) |});
                descriptor := handed_of p1;
                after := w1; sent := [handed_of p1] |})
  /\ (400 <= status res ->
      thrown (request qs_stringify race this p w) =
        Some {| err_message :=
                  "Request failed: " +:+ method p +:+ " " +:+ url p;
                err_config := raw_of inst p;
                err_status := Some (status res);
                err_headers := Some (res_headers res);
                err_data := Some (res_data res) |})
  /\ (status res < 400 ->
      thrown (request qs_stringify race this p w) = None).
Proof.
  intros Ho Hthis Hi Hv Ht Hr.
  assert (defaultValidator this = Some (fun s => s <? 400)) as Hdv.
  { rewrite Hthis. unfold setupInstance. rewrite Ho.
    destruct (opt_baseHeaders opts); [|destruct (alloc ∅ w0)];
      destruct (opt_randomizeUserAgent opts);
      try destruct (newUserAgent _); reflexivity. }
  split; [exact Hdv|].
  rewrite (request_configured this inst p w p1 w1 Hi Ht).
  destruct (transformParams_scalars _ _ _ _ _ Ht) as (_ & _ & _ & Hvs & _).
  unfold attempt. rewrite Hr. simpl. rewrite Hvs. simpl. rewrite Hv, Hdv.
  split; [|split].
  - intros Hs. rewrite Hs. simpl. rewrite Hs. reflexivity.
  - intros Hs. replace (status res <? 400) with false
      by (symmetry; apply Z.ltb_ge; exact Hs).
    reflexivity.
  - intros Hs. replace (status res <? 400) with true
      by (symmetry; apply Z.ltb_lt; exact Hs).
    simpl.
    destruct (match returnType p1 with
              | Some t => Some t
              | None => defaultReturnType this
              end) as [[|]|]; reflexivity.
Qed.

Lemma view_extends w w' p :
  extends w w' ->
  ref_in w (headers p) -> body_in w (data p) ->
  ref_in w (form p) -> ref_in w (params p) ->
  view w' p = view w p.
Proof.
  intros He Hh Hd Hf Hq. unfold view.
  rewrite (extends_content _ _ _ He Hh), (extends_body_view _ _ _ He Hd),
    (extends_content _ _ _ He Hf), (extends_content _ _ _ He Hq).
  reflexivity.
Qed.

Lemma base_view_extends w w' this :
  extends w w' ->
  ref_in w (baseHeaders this) -> ref_in w (baseData this) ->
  base_view w' this = base_view w this.
Proof.
  intros He Hh Hd. unfold base_view.
  rewrite (extends_spread_ref _ _ _ He Hh), (extends_content _ _ _ He Hd).
  reflexivity.
Qed.

(** C2 (as amended).  Whatever way a configured call fails, the request
    carried by the error is [rawParams], the descriptor as the caller
    passed it with the effective timeout filled in and before any
    composition: same method and URL, same objects, and those objects
    hold after the call what they held before it.  The message names the
    method and the URL of that descriptor. *)
Theorem error_carries_raw_descriptor this inst p w c e :
  instance this = Some inst ->
  closed w this p ->
  request qs_stringify race this p w = Some c ->
  outcome c = Throws (InternalServerErrorExceptionWith e) ->
  err_config e = raw_of inst p
  /\ view (after c) (err_config e) = view w (raw_of inst p)
  /\ exists errorPrefix,
       err_message e =
         prefix_text errorPrefix +:+ ": " +:+ method p +:+ " " +:+ url p.
Proof.
  intros Hi Hc Hreq Hout.
  destruct (transformParams qs_stringify this (raw_of inst p) w)
    as [[p1 w1]|] eqn:Ht.
  - rewrite (request_configured this inst p w p1 w1 Hi Ht) in Hreq.
    assert (closed w this (raw_of inst p)) as Hc' by exact Hc.
    destruct (transformParams_spec _ _ _ _ _ Hc' Ht) as (He & _ & _).
    destruct Hc as (_ & _ & Hh & Hd & Hf & Hq).
    destruct (attempt race this (handed_of p1) w1) as [[pre res|res] p'].
    + injection Hreq as <-. simpl in Hout. injection Hout as <-. simpl.
      split; [reflexivity|]. split; [|exists pre; reflexivity].
      apply view_extends; assumption.
    + injection Hreq as <-. simpl in Hout.
      destruct (match returnType p' with
                | Some t => Some t
                | None => defaultReturnType this
                end) as [[|]|]; discriminate Hout.
  - unfold request in Hreq. rewrite Hi in Hreq.
    fold (raw_of inst p) in Hreq. rewrite Ht in Hreq. discriminate Hreq.
Qed.

(** *** The URL *)

Lemma replaceEach_Templated reps u u' :
  replaceEach reps u = Some u' -> Templated reps u u'.
Proof.
  revert u. induction reps as [|[k v] reps IH]; intros u H; simpl in H.
  - injection H as <-. apply Templated_nil.
  - destruct (regex_literal k); [|discriminate].
    eapply Templated_cons; [|apply IH, H].
    apply replace_all_Replaced. discriminate.
Qed.

(** C4 (as amended).  With a base URL [B] the URL is first [B] followed
    by the descriptor's URL, nothing added or removed.  The replacement
    keys (plain text) are then taken in turn: every occurrence of
    [:key], found scanning the URL the earlier keys have left from the
    left, is replaced by the percent-encoded value, and a key whose
    marker does not occur in that URL leaves it as it is. *)
Theorem url_is_joined_then_templated this p w B :
  baseUrl this = Some B ->
  keys_literal p = true ->
  (exists p' w',
     transformParams qs_stringify this p w = Some (p', w')
     /\ Templated (default [] (replacements p)) (B +:+ url p) (url p'))
  /\ (replacements p = None ->
      exists p' w',
        transformParams qs_stringify this p w = Some (p', w')
        /\ url p' = B +:+ url p)
  /\ (forall key value u,
        regex_literal key = true ->
        includes (":" +:+ key) u = false ->
        replaceOne u (key, value) = Some u).
Proof.
  intros HB Hk.
  destruct (transformParams_total this p w Hk) as (p' & w' & Ht).
  destruct (transformParams_scalars _ _ _ _ _ Ht) as (_ & _ & _ & _ & _ & _ & Hu).
  assert ((if truthy_str (baseUrl this)
           then default "" (baseUrl this) +:+ url p else url p)
          = B +:+ url p) as Hjoin.
  { rewrite HB. destruct B; reflexivity. }
  rewrite Hjoin in Hu.
  split; [|split].
  - exists p', w'. split; [exact Ht|]. apply replaceEach_Templated, Hu.
  - intros Hnone. exists p', w'. split; [exact Ht|].
    rewrite Hnone in Hu. simpl in Hu. injection Hu as <-. reflexivity.
  - intros key value u Hlit Habs. unfold replaceOne. rewrite Hlit.
    rewrite (replace_all_absent _ _ _ Habs). reflexivity.
Qed.

(** *** Merging and the form *)

Lemma merged_over_union (own base : Obj) : merged_over own base (own ∪ base).
Proof.
  intros k. rewrite lookup_union.
  destruct (own !! k), (base !! k); reflexivity.
Qed.

Lemma spread_ref_content w r : default ∅ (deref w <$> r) = spread_ref w r.
Proof. destruct r; reflexivity. Qed.

(** What the composition makes of a view that has a form. *)
Lemma composeView_form b v f V :
  v_form v = Some f ->
  composeView qs_stringify b v = Some V ->
  v_data V = Some (inl (qs_stringify (f ∪ default ∅ (b_data b))))
  /\ exists h, v_headers V = Some h
               /\ h !! "content-type" = Some (VStr form_content_type).
Proof.
  intros Hf. unfold composeView, applyReplacementsView, stringifyFormView.
  simpl. rewrite Hf. simpl.
  destruct (v_replacements v) as [reps|].
  - destruct (replaceEach reps _); [|discriminate].
    intros [= <-]. simpl. split; [reflexivity|].
    eexists. split; [reflexivity | apply lookup_insert_eq].
  - intros [= <-]. simpl. split; [reflexivity|].
    eexists. split; [reflexivity | apply lookup_insert_eq].
Qed.

(** C5.  A descriptor with a form, composed: the body is the string
    [qs.stringify] makes of the form merged over the base data, and the
    headers object has [content-type] set to
    [application/x-www-form-urlencoded], whatever the descriptor's and
    the base headers said. *)
Theorem form_is_stringified this p w fl :
  form p = Some fl ->
  closed w this p ->
  keys_literal p = true ->
  exists p' w' hl,
    transformParams qs_stringify this p w = Some (p', w')
    /\ data p' =
         Some (BStr (qs_stringify
                       (deref w fl ∪ spread_ref w (baseData this))))
    /\ headers p' = Some hl
    /\ deref w' hl !! "content-type"
       = Some (VStr "application/x-www-form-urlencoded").
Proof.
  intros Hf Hc Hk.
  destruct (transformParams_total this p w Hk) as (p' & w' & Ht).
  destruct (transformParams_spec _ _ _ _ _ Hc Ht) as (_ & _ & Hv).
  assert (v_form (view w p) = Some (deref w fl)) as Hvf
    by (unfold view; simpl; rewrite Hf; reflexivity).
  destruct (composeView_form _ _ _ _ Hvf Hv) as (Hd & h & Hh & Hct).
  unfold base_view in Hd. simpl in Hd. rewrite spread_ref_content in Hd.
  unfold view in Hd, Hh. simpl in Hd, Hh.
  destruct (data p') as [[dl|ds]|] eqn:Hdp; simpl in Hd; try discriminate Hd.
  destruct (headers p') as [hl|] eqn:Hhp; simpl in Hh; [|discriminate Hh].
  injection Hd as Hd. injection Hh as Hh. subst ds h.
  exists p', w', hl.
  split; [exact Ht|]. split; [exact Hdp|]. split; [exact Hhp | exact Hct].
Qed.

(** C7.  The first block of [transformParams]: the headers object it
    leaves is the descriptor's headers merged over the base headers; with
    base data, each of body, query and form that the descriptor has is
    replaced by itself merged over the base data, and one it does not
    have stays absent; in a merge the descriptor's value for a key wins.
    The blocks that follow leave the query and the form as merged, and,
    when there is no form, the body and the headers too. *)
Theorem bases_are_merged this p w p1 w1 :
  closed w this p ->
  joinBases this p w = (p1, w1) ->
  (exists hl,
     headers p1 = Some hl
     /\ merged_over (spread_ref w (headers p))
          (spread_ref w (baseHeaders this)) (deref w1 hl))
  /\ (forall bl, baseData this = Some bl ->
        (forall dl, data p = Some (BObj dl) ->
           exists dl', data p1 = Some (BObj dl')
                       /\ merged_over (deref w dl) (deref w bl) (deref w1 dl'))
        /\ (forall ql, params p = Some ql ->
              exists ql', params p1 = Some ql'
                          /\ merged_over (deref w ql) (deref w bl)
                               (deref w1 ql'))
        /\ (forall fl, form p = Some fl ->
              exists fl', form p1 = Some fl'
                          /\ merged_over (deref w fl) (deref w bl)
                               (deref w1 fl')))
  /\ (data p = None -> data p1 = None)
  /\ (params p = None -> params p1 = None)
  /\ (form p = None -> form p1 = None)
  /\ (forall p' w',
        transformParams qs_stringify this p w = Some (p', w') ->
        (deref w' <$> params p') = (deref w1 <$> params p1)
        /\ (deref w' <$> form p') = (deref w1 <$> form p1)
        /\ (form p = None ->
            body_view w' (data p') = body_view w1 (data p1)
            /\ (deref w' <$> headers p') = (deref w1 <$> headers p1))).
Proof.
  intros Hc Hj.
  destruct (joinBases_spec this p w p1 w1 Hc Hj)
    as (He1 & Hc1 & (hl & Hh & Hfresh & Hin & Hd & Hf & Hq) & Hv).
  assert (v_headers (view w1 p1)
          = v_headers (joinBasesView (base_view w this) (view w p))) as Vh
    by (rewrite Hv; reflexivity).
  assert (v_data (view w1 p1)
          = v_data (joinBasesView (base_view w this) (view w p))) as Vd
    by (rewrite Hv; reflexivity).
  assert (v_form (view w1 p1)
          = v_form (joinBasesView (base_view w this) (view w p))) as Vf
    by (rewrite Hv; reflexivity).
  assert (v_params (view w1 p1)
          = v_params (joinBasesView (base_view w this) (view w p))) as Vq
    by (rewrite Hv; reflexivity).
  clear Hv. unfold view, joinBasesView, base_view in Vh, Vd, Vf, Vq.
  simpl in Vh, Vd, Vf, Vq.
  split; [|split; [|split; [|split; [|split]]]].
  - exists hl. split; [exact Hh|]. rewrite Hh in Vh. simpl in Vh.
    injection Vh as ->. rewrite spread_ref_content. apply merged_over_union.
  - intros bl Hbl. rewrite Hbl in Vd, Vf, Vq. simpl in Vd, Vf, Vq.
    split; [|split].
    + intros dl Hdl. rewrite Hdl in Vd. simpl in Vd.
      destruct (data p1) as [[dl'|?]|]; simpl in Vd; try discriminate Vd.
      injection Vd as Vd. exists dl'. split; [reflexivity|].
      rewrite Vd. apply merged_over_union.
    + intros ql Hql. rewrite Hql in Vq. simpl in Vq.
      destruct (params p1) as [ql'|]; simpl in Vq; [|discriminate Vq].
      injection Vq as Vq. exists ql'. split; [reflexivity|].
      rewrite Vq. apply merged_over_union.
    + intros fl Hfl. rewrite Hfl in Vf. simpl in Vf.
      destruct (form p1) as [fl'|]; simpl in Vf; [|discriminate Vf].
      injection Vf as Vf. exists fl'. split; [reflexivity|].
      rewrite Vf. apply merged_over_union.
  - intros Hn. rewrite Hn in Vd. simpl in Vd.
    destruct (deref w <$> baseData this), (data p1) as [[?|?]|];
      simpl in Vd; congruence.
  - intros Hn. rewrite Hn in Vq. simpl in Vq.
    destruct (params p1); [discriminate Vq | reflexivity].
  - intros Hn. rewrite Hn in Vf. simpl in Vf.
    destruct (form p1); [discriminate Vf | reflexivity].
  - intros p' w' Ht. unfold transformParams in Ht. rewrite Hj in Ht.
    destruct (stringifyForm qs_stringify p1 w1) as [p2 w2] eqn:Hs.
    destruct (stringifyForm_spec p1 w1 p2 w2 hl Hh Hd Hf Hq Hs)
      as (Hh2 & Hf2 & Hq2 & Hother & Hdom & Hnone & Hsome & Hv2).
    destruct (applyReplacements p2) as [p3|] eqn:Ha; [|discriminate].
    injection Ht as <- <-.
    destruct (applyReplacements_view w2 p2 p3 Ha)
      as (Hh3 & Hd3 & Hf3 & Hq3 & _).
    rewrite Hq3, Hq2, Hf3, Hf2, Hd3, Hh3, Hh2.
    split; [|split].
    + destruct (params p1) as [ql|]; simpl; [|reflexivity].
      rewrite Hother by congruence. reflexivity.
    + destruct (form p1) as [fl|]; simpl; [|reflexivity].
      rewrite Hother by congruence. reflexivity.
    + intros Hn. rewrite Hn in Vf. simpl in Vf.
      destruct (form p1) as [fl|] eqn:Hfl; [discriminate Vf|].
      destruct (Hnone eq_refl) as [-> ->]. rewrite Hh. split; reflexivity.
Qed.

(** *** Composing twice *)

Lemma transformParams_none_view this p w :
  closed w this p ->
  transformParams qs_stringify this p w = None ->
  composeView qs_stringify (base_view w this) (view w p) = None.
Proof.
  intros Hc Ht. unfold transformParams in Ht.
  destruct (joinBases this p w) as [p1 w1] eqn:Hj.
  destruct (joinBases_spec this p w p1 w1 Hc Hj)
    as (He1 & Hc1 & (hl & Hh & Hfresh & Hin & Hd & Hf & Hq) & Hv1).
  destruct (stringifyForm qs_stringify p1 w1) as [p2 w2] eqn:Hs.
  destruct (stringifyForm_spec p1 w1 p2 w2 hl Hh Hd Hf Hq Hs)
    as (_ & _ & _ & _ & _ & _ & _ & Hv2).
  destruct (applyReplacements p2) as [p3|] eqn:Ha; [discriminate|].
  unfold composeView. rewrite <- Hv1, <- Hv2.
  apply applyReplacements_none_view, Ha.
Qed.

Lemma setupInstance_user_agent this0 opts w0 :
  opt_randomizeUserAgent opts = true ->
  let '(this, _, w) := setupInstance newUserAgent this0 opts w0 in
  spread_ref w (baseHeaders this) !! "user-agent"
    = Some (VStr (newUserAgent (rng w0)).1)
  /\ rng w = (newUserAgent (rng w0)).2.
Proof.
  intros Hr. unfold setupInstance. rewrite Hr.
  destruct (opt_baseHeaders opts) as [bh|].
  - destruct (newUserAgent (rng w0)) as [ua g] eqn:Hua. simpl.
    rewrite store_deref. destruct (decide (bh = bh)); [|congruence].
    split; [apply lookup_insert_eq | reflexivity].
  - destruct (alloc ∅ w0) as [bh w1] eqn:Ha.
    destruct (alloc_inv _ _ _ _ Ha) as (_ & _ & _ & _ & Hrng).
    rewrite Hrng.
    destruct (newUserAgent (rng w0)) as [ua g] eqn:Hua. simpl.
    rewrite store_deref. destruct (decide (bh = bh)); [|congruence].
    split; [apply lookup_insert_eq | reflexivity].
Qed.

(** C9.  Composing does not touch what composing reads.  After a first
    composition the bases of the service hold what they held and the
    source of randomness is where it was; a second composition, of a
    descriptor that reads the same as the first one did, returns, and
    returns a descriptor that reads the same as the first result.  The
    random user agent is drawn in [setupInstance], once, and stored in the
    base headers. *)
Theorem composing_twice_agrees this p q w p1 w1 :
  closed w this p ->
  transformParams qs_stringify this p w = Some (p1, w1) ->
  closed w1 this q ->
  view w1 q = view w p ->
  base_view w1 this = base_view w this
  /\ rng w1 = rng w
  /\ (exists q1 w2,
        transformParams qs_stringify this q w1 = Some (q1, w2)
        /\ view w2 q1 = view w1 p1
        /\ base_view w2 this = base_view w this
        /\ rng w2 = rng w)
  /\ (forall this0 opts w0,
        opt_randomizeUserAgent opts = true ->
        let '(this', _, w') := setupInstance newUserAgent this0 opts w0 in
        spread_ref w' (baseHeaders this') !! "user-agent"
          = Some (VStr (newUserAgent (rng w0)).1)
        /\ rng w' = (newUserAgent (rng w0)).2).
Proof.
  intros Hc Ht Hcq Hvq.
  destruct (transformParams_spec _ _ _ _ _ Hc Ht) as (He & Hc1 & Hv).
  assert (base_view w1 this = base_view w this) as Hb.
  { destruct Hc as (Hbh & Hbd & _). apply base_view_extends; assumption. }
  split; [exact Hb|]. split; [apply He|]. split.
  - destruct (transformParams qs_stringify this q w1) as [[q1 w2]|] eqn:Htq.
    + destruct (transformParams_spec _ _ _ _ _ Hcq Htq) as (He2 & _ & Hv2).
      exists q1, w2. split; [reflexivity|].
      rewrite Hb, Hvq, Hv in Hv2.
      split; [congruence|]. split.
      * rewrite <- Hb. destruct Hcq as (Hbh & Hbd & _).
        apply base_view_extends; assumption.
      * destruct He as [_ <-]. apply He2.
    + pose proof (transformParams_none_view _ _ _ Hcq Htq) as Hn.
      rewrite Hb, Hvq, Hv in Hn. discriminate Hn.
  - intros this0 opts w0. apply setupInstance_user_agent.
Qed.

End service_facts.

(** *** The theorems at work in the small world *)

Lemma request_requires_setup_witness :
  request demo_qs demo_race
    (newHttpsService {| HTTPS_DEFAULT_TIMEOUT := 5000 |})
    (demo_get "/") demo_world =
    Some {| outcome := Throws (InternalServerErrorException
              "https service must be configured with this.setupInstance()");
            descriptor := demo_get "/"; after := demo_world; sent := [] |}.
Proof.
  apply (request_requires_setup demo_qs demo_race
           (newHttpsService {| HTTPS_DEFAULT_TIMEOUT := 5000 |})
           (demo_get "/") demo_world "/" {| HTTPS_DEFAULT_TIMEOUT := 5000 |}).
  reflexivity.
Defined.


Lemma default_validator_rejects_404_witness :
  thrown (request demo_qs demo_race demo_service (demo_get "/missing")
            demo_ready)
  = Some {| err_message := "Request failed: GET /missing";
            err_config := set_timeout (Some 5000) (demo_get "/missing");
            err_status := Some 404;
            err_headers := Some {["content-type" := VStr "text/plain"]};
            err_data := Some (VStr "not found") |}.
Proof.
  erewrite (proj1 (proj2 (default_validator_rejects_404 demo_agent demo_qs demo_race
                     (newHttpsService {| HTTPS_DEFAULT_TIMEOUT := 5000 |})
                     demo_options demo_world demo_service
                     {| defaults_timeout := 5000; rejectUnauthorized := true |}
                     (demo_get "/missing") demo_ready _ _ _
                     eq_refl eq_refl eq_refl eq_refl eq_refl eq_refl))).
  - reflexivity.
  - reflexivity.
Defined.

Lemma demo_closed p :
  headers p = None -> data p = None -> form p = None -> params p = None ->
  closed demo_ready demo_service p.
Proof.
  intros Hh Hd Hf Hq. unfold closed. rewrite Hh, Hd, Hf, Hq.
  repeat split.
Qed.

Lemma error_carries_raw_descriptor_witness :
  exists c e,
    request demo_qs demo_race demo_service (demo_get "/down") demo_ready
      = Some c
    /\ outcome c = Throws (InternalServerErrorExceptionWith e)
    /\ err_config e = set_timeout (Some 5000) (demo_get "/down").
Proof.
  eexists _, _. split; [vm_compute; reflexivity|]. split; [reflexivity|].
  eapply (error_carries_raw_descriptor demo_qs demo_race demo_service
            {| defaults_timeout := 5000; rejectUnauthorized := true |}
            (demo_get "/down") demo_ready).
  - reflexivity.
  - apply demo_closed; reflexivity.
  - vm_compute. reflexivity.
  - reflexivity.
Defined.

(** C2 as stated fails: with the base URL [https://api.test] and the
    descriptor [GET /down], a transport exception gives an error whose
    request has the URL [/down], while the composed request has the URL
    [https://api.test/down]. *)
Lemma error_carries_resolved_request_counterexample :
  exists e p1 w1,
    thrown (request demo_qs demo_race demo_service (demo_get "/down")
              demo_ready) = Some e
    /\ transformParams demo_qs demo_service
         (set_timeout (Some 5000) (demo_get "/down")) demo_ready
       = Some (p1, w1)
    /\ url (err_config e) = "/down"
    /\ url p1 = "https://api.test/down"
    /\ err_config e <> p1.
Proof.
  eexists _, _, _. split; [reflexivity|]. split; [reflexivity|].
  split; [reflexivity|]. split; [reflexivity|]. discriminate.
Qed.

Lemma url_is_joined_then_templated_witness :
  exists p' w',
    transformParams demo_qs demo_service
      (with_replacements [("id", "a/b"); ("tab", "x y")]
         (demo_get "/users/:id/:tab/:id"))
      demo_ready = Some (p', w')
    /\ Templated [("id", "a/b"); ("tab", "x y")]
         ("https://api.test" +:+ "/users/:id/:tab/:id") (url p').
Proof.
  apply (url_is_joined_then_templated demo_qs demo_service
           (with_replacements [("id", "a/b"); ("tab", "x y")]
              (demo_get "/users/:id/:tab/:id"))
           demo_ready "https://api.test").
  - reflexivity.
  - reflexivity.
Defined.

Example url_templated_example :
  (fun r => url (fst r)) <$>
    transformParams demo_qs demo_service
      (with_replacements [("id", "a/b"); ("tab", "x y")]
         (demo_get "/users/:id/:tab/:id"))
      demo_ready
  = Some "https://api.test/users/a%2Fb/x%20y/a%2Fb".
Proof. reflexivity. Qed.

(** C4 as stated fails.  The key [abc] does not occur in the joined URL
    [https://api.test/:a:b], yet it is not ignored: once [:b] has become
    [bc] the URL reads [/:abc], and the turn of [abc] replaces that.
    Without the key the URL stays [https://api.test/:abc].  And the
    occurrence of [:idx] in [/u/:idx] is not replaced by the value of
    [idx], the key [id] having taken its first three characters. *)
Lemma url_template_counterexample :
  includes ":abc" ("https://api.test" +:+ "/:a:b") = false
  /\ (fun r => url (fst r)) <$>
       transformParams demo_qs demo_service
         (with_replacements [("b", "bc"); ("abc", "Z")] (demo_get "/:a:b"))
         demo_ready
     = Some "https://api.test/Z"
  /\ (fun r => url (fst r)) <$>
       transformParams demo_qs demo_service
         (with_replacements [("b", "bc")] (demo_get "/:a:b")) demo_ready
     = Some "https://api.test/:abc"
  /\ (fun r => url (fst r)) <$>
       transformParams demo_qs demo_service
         (with_replacements [("id", "7"); ("idx", "9")] (demo_get "/u/:idx"))
         demo_ready
     = Some "https://api.test/u/7x".
Proof. repeat split; reflexivity. Qed.

Lemma demo_signup_closed :
  closed demo_signup_world demo_service demo_signup.
Proof. vm_compute. repeat split. Qed.

Lemma form_is_stringified_witness :
  exists p' w' hl,
    transformParams demo_qs demo_service demo_signup demo_signup_world
      = Some (p', w')
    /\ data p' =
         Some (BStr (demo_qs
                       (deref demo_signup_world (fst demo_form)
                        ∪ spread_ref demo_signup_world
                            (baseData demo_service))))
    /\ headers p' = Some hl
    /\ deref w' hl !! "content-type"
       = Some (VStr "application/x-www-form-urlencoded").
Proof.
  apply (form_is_stringified demo_qs demo_service demo_signup
           demo_signup_world (fst demo_form)).
  - reflexivity.
  - exact demo_signup_closed.
  - reflexivity.
Defined.

Example form_example :
  (fun r => data (fst r)) <$>
    transformParams demo_qs demo_service demo_signup demo_signup_world
  = Some (Some (BStr "user=ann%20lee")).
Proof. vm_compute. reflexivity. Qed.

Lemma bases_are_merged_witness :
  exists hl,
    headers (joinBases demo_service demo_signup demo_signup_world).1 = Some hl
    /\ merged_over
         (spread_ref demo_signup_world (headers demo_signup))
         (spread_ref demo_signup_world (baseHeaders demo_service))
         (deref (joinBases demo_service demo_signup demo_signup_world).2 hl).
Proof.
  apply (bases_are_merged demo_qs demo_service demo_signup demo_signup_world
           (joinBases demo_service demo_signup demo_signup_world).1
           (joinBases demo_service demo_signup demo_signup_world).2).
  - exact demo_signup_closed.
  - destruct (joinBases demo_service demo_signup demo_signup_world).
    reflexivity.
Defined.

Lemma composing_twice_agrees_witness :
  exists q1 w2,
    transformParams demo_qs demo_service demo_signup (snd demo_composed)
      = Some (q1, w2)
    /\ view w2 q1 = view (snd demo_composed) (fst demo_composed)
    /\ base_view w2 demo_service = base_view demo_signup_world demo_service
    /\ rng w2 = rng demo_signup_world.
Proof.
  apply (composing_twice_agrees demo_agent demo_qs demo_service
           demo_signup demo_signup demo_signup_world
           (fst demo_composed) (snd demo_composed)).
  - exact demo_signup_closed.
  - vm_compute. reflexivity.
  - vm_compute. repeat split.
  - vm_compute. reflexivity.
Defined.

End HttpsSpec.

(** ** More on the retry executor *)

Module UtilMore.
Import Util.

Section retry_more.

Local Set Default Proof Using "Type".

Context {W T E : Type}.
Variable now : W -> Z.
Variable halt : Z -> W -> W.
Variable debug : LogMsg E -> W -> W.

Local Abbreviation params := (UtilRetryParams W T E).
Local Abbreviation loop := (retry_loop now halt debug).
Local Abbreviation run := (retryOnException now halt debug).

Implicit Types (p : params) (w : W) (e : E) (fuel : nat).

Lemma loop_shape fuel p nm st :
  forall t (errs : list E) w r,
    loop fuel p nm st t (inl <$> errs) w = Some r ->
    exists (errs' : list E) (last : E + T),
      attempts r = ((inl <$> errs') ++ [last])%list
      /\ completion r = match last with
                        | inr x => Returned x
                        | inl e => Thrown e
                        end.
Proof.
  induction fuel as [|fuel IH]; intros t errs w r H; [discriminate|].
  simpl in H. destruct (method p w) as [[e|x] w1].
  - destruct (gives_up p t (now w1 - st) e).
    + injection H as <-. exists errs, (inl e). split; reflexivity.
    + replace ((inl <$> errs) ++ [inl e])%list
        with (inl <$> (errs ++ [e])%list : list (E + T)) in H
        by (rewrite fmap_app; reflexivity).
      eapply IH, H.
  - injection H as <-. exists errs, (inr x). split; reflexivity.
Qed.


Lemma loop_count fuel p nm st r0 :
  retries p = Some r0 -> r0 <> 0 ->
  forall t seen w r,
    loop fuel p nm st t seen w = Some r ->
    Z.of_nat (length (attempts r))
    <= Z.of_nat (length seen) + Z.max 1 (r0 + 2 - t).
Proof.
  intros Hr Hr0. induction fuel as [|fuel IH]; intros t seen w r H;
    [discriminate|].
  simpl in H. destruct (method p w) as [[e|x] w1].
  - destruct (gives_up p t (now w1 - st) e) eqn:Hg.
    + injection H as <-. simpl. rewrite length_app. simpl. lia.
    + apply IH in H. rewrite length_app in H. simpl in H.
      assert (t <= r0) as Ht.
      { unfold gives_up, retries_exceeded in Hg. rewrite Hr in Hg.
        destruct (t >? r0) eqn:Hgt;
          [|rewrite Z.gtb_ltb in Hgt; apply Z.ltb_ge in Hgt; exact Hgt].
        replace (negb (r0 =? 0)) with true in Hg
          by (symmetry; apply negb_true_iff, Z.eqb_neq; exact Hr0).
        discriminate Hg. }
      lia.
  - injection H as <-. simpl. rewrite length_app. simpl. lia.
Qed.


End retry_more.



End UtilMore.

(** ** The provider's retry *)

Module ProviderSpec.
Import Provider.

Section retry_facts.

Local Set Default Proof Using "Type".

Context {W T E : Type}.
Variable now : W -> Z.
Variable wait : Z -> W -> W.
Variable truthy_result : T -> bool.
Variable debug : LogMsg E -> W -> W.

Local Abbreviation params := (AbstractRetryParams W T E).
Local Abbreviation loop := (retry_loop now wait truthy_result debug).
Local Abbreviation run := (retry now wait truthy_result debug).

Implicit Types (p : params) (w : W) (e : E) (fuel : nat).

Lemma loop_returns_truthy fuel p st :
  forall t seen w r x,
    loop fuel p st t seen w = Some r ->
    completion r = Returned x -> truthy_result x = true.
Proof.
  induction fuel as [|fuel IH]; intros t seen w r x H Hc; [discriminate|].
  simpl in H. destruct (call p w) as [[e|y] w1].
  - destruct (gives_up p t (now w1 - st) e).
    + injection H as <-. discriminate Hc.
    + eapply IH; eassumption.
  - destruct (truthy_result y) eqn:Hy.
    + injection H as <-. simpl in Hc. injection Hc as <-. exact Hy.
    + eapply IH; eassumption.
Qed.

(** X3.  What [retry] returns is truthy: a method that resolves with a falsy
    value has not, for the loop, resolved at all. *)
Theorem retry_returns_truthy fuel p w r x :
  retry now wait truthy_result debug fuel p w = Some r ->
  completion r = Returned x ->
  truthy_result x = true.
Proof.
  unfold retry. intros H Hc.
  destruct (loop fuel p _ 1 [] _) as [r0|] eqn:Hl; [|discriminate].
  destruct (completion r0) as [y|e] eqn:Hc0.
  - injection H as <-. simpl in Hc. injection Hc as <-.
    eapply loop_returns_truthy; eassumption.
  - injection H as <-. rewrite Hc0 in Hc. discriminate Hc.
Qed.

Lemma loop_falsy_forever p st :
  always_falsy truthy_result p ->
  forall fuel t seen w, loop fuel p st t seen w = None.
Proof.
  intros Hf. induction fuel as [|fuel IH]; intros t seen w; [reflexivity|].
  simpl. destruct (Hf w) as (x & w1 & -> & ->). apply IH.
Qed.

(** X4.  A method that always resolves with a falsy value is invoked again
    and again: no retry bound, time budget or [validateRetry] stops the loop,
    all three being tested only when the method raises. *)
Theorem retry_falsy_never_ends fuel p w :
  always_falsy truthy_result p ->
  run fuel p w = None.
Proof.
  intros Hf. unfold retry. rewrite loop_falsy_forever by exact Hf.
  reflexivity.
Qed.

End retry_facts.

Section two_loops.

Local Set Default Proof Using "Type".

Context {W T E : Type}.
Variable now : W -> Z.
Variable halt : Z -> W -> W.
Variable debugU : Util.LogMsg E -> W -> W.
Variable debugP : LogMsg E -> W -> W.
Variable truthy_result : T -> bool.

Lemma loops_agree (u : Util.UtilRetryParams W T E)
    (p : AbstractRetryParams W T E) :
  call p = Util.method u ->
  method p = str_or (Util.name u) "Unnamed" ->
  retries p = Util.retries u ->
  timeout p = Util.timeout u ->
  delay p = Util.delay u ->
  (forall e, match validateRetry p with
             | Some f => negb (f e)
             | None => false
             end = Util.break_requested u e) ->
  (forall m w, debugP (to_provider_msg m) w = debugU m w) ->
  (forall x, truthy_result x = true) ->
  forall fuel st t seen w,
    same_run
      (Util.retry_loop now halt debugU fuel u (method p) st t seen w)
      (retry_loop now halt truthy_result debugP fuel p st t seen w).
Proof.
  intros Hcall Hm Hr Ht Hd Hv Hlog Htr.
  induction fuel as [|fuel IH]; intros st t seen w; [exact I|].
  simpl. rewrite Hcall. destruct (Util.method u w) as [[e|x] w1].
  - assert (gives_up p t (now w1 - st) e
            = Util.gives_up u t (now w1 - st) e) as ->.
    { unfold gives_up, Util.gives_up, Util.retries_exceeded,
        Util.timeout_exceeded, truthy_num.
      rewrite Hr, Ht, Hv.
      destruct (Util.retries u), (Util.timeout u); reflexivity. }
    destruct (Util.gives_up u t (now w1 - st) e).
    + simpl. repeat split; reflexivity.
    + rewrite <- Hlog. simpl.
      unfold Util.shown, shown. rewrite Hr, Ht, Hd. apply IH.
  - rewrite Htr. simpl. repeat split; reflexivity.
Qed.

(** X5.  The two retry loops of the repository agree.  For a method that never
    resolves with a falsy value, [retry] under [validateRetry] and
    [retryOnException] under the opposite [breakIf], with the same bounds
    and delay, invoke the method the same number of times with the same
    results, end the same way and leave the same world, for as long as
    the two loggers treat corresponding lines alike. *)
Theorem retry_agrees_with_retryOnException
    (u : Util.UtilRetryParams W T E) (p : AbstractRetryParams W T E)
    fuel w :
  call p = Util.method u ->
  method p = str_or (Util.name u) "Unnamed" ->
  retries p = Util.retries u ->
  timeout p = Util.timeout u ->
  delay p = Util.delay u ->
  (forall e, match validateRetry p with
             | Some f => negb (f e)
             | None => false
             end = Util.break_requested u e) ->
  (forall m w, debugP (to_provider_msg m) w = debugU m w) ->
  (forall x, truthy_result x = true) ->
  same_run (Util.retryOnException now halt debugU fuel u w)
           (retry now halt truthy_result debugP fuel p w).
Proof.
  intros Hcall Hm Hr Ht Hd Hv Hlog Htr.
  unfold Util.retryOnException, retry.
  rewrite <- Hm, <- Hr, <- Ht.
  assert (debugU (Util.StartMsg (method p) (Util.shown (retries p))
                    (Util.shown (timeout p))) w
          = debugP (RunningMsg (method p) (shown (retries p))
                      (shown (timeout p))) w) as ->
    by (rewrite <- Hlog; reflexivity).
  set (w1 := debugP (RunningMsg (method p) (shown (retries p))
                       (shown (timeout p))) w).
  pose proof (loops_agree u p Hcall Hm Hr Ht Hd Hv Hlog Htr fuel
                (now w1) 1 [] w1) as Hl.
  destruct (Util.retry_loop now halt debugU fuel u (method p) (now w1) 1 []
              w1) as [a|],
    (retry_loop now halt truthy_result debugP fuel p (now w1) 1 [] w1)
      as [b|]; simpl in Hl; try contradiction; [|exact I].
  destruct Hl as (Ha & Hw & Hc).
  destruct (Util.completion a) as [x|e] eqn:Hca,
    (completion b) as [y|e'] eqn:Hcb; try contradiction; simpl.
  - rewrite <- (Hlog (Util.FinishMsg _)), Hw. simpl.
    repeat split; [exact Ha | exact Hc].
  - rewrite Hca, Hcb. repeat split; [exact Ha | exact Hw | exact Hc].
Qed.

End two_loops.

Lemma retry_returns_truthy_witness : negb (Nat.eqb 1 0) = true.
Proof.
  apply (retry_returns_truthy (fun w => Z.of_nat w)
           (fun ms w => (w + Z.to_nat ms)%nat)
           (fun x => negb (Nat.eqb x 0)) (fun _ w => w)
           5 (beat_params 3 None None) 0%nat
           {| completion := Returned 1%nat;
              attempts := [inr 0%nat; inr 1%nat]; world := 2%nat |} 1%nat).
  - reflexivity.
  - reflexivity.
Defined.

Example beat_skips_falsy :
  beat_run 5 (beat_params 3 None None) 0 =
    Some {| completion := Returned 1%nat;
            attempts := [inr 0%nat; inr 1%nat]; world := 2%nat |}.
Proof. reflexivity. Qed.

Lemma retry_falsy_never_ends_witness :
  beat_run 30 (beat_params 1 (Some 2) (Some 5)) 0 = None.
Proof.
  apply (retry_falsy_never_ends (fun w => Z.of_nat w)
           (fun ms w => (w + Z.to_nat ms)%nat)
           (fun x => negb (Nat.eqb x 0)) (fun _ w => w)
           30 (beat_params 1 (Some 2) (Some 5)) 0%nat).
  intros w. exists 0%nat, (S w). split; reflexivity.
Defined.

Lemma retry_agrees_with_retryOnException_witness :
  same_run
    (Util.tick_run 6 (Util.tick_params (Some 2) None (Some (Nat.eqb 1))))
    (retry Util.tick_now Util.tick_halt (fun _ : unit => true)
       (fun _ w => w) 6
       (tick_as_provider (Some 2) None (Some (Nat.eqb 1))) 0%nat).
Proof.
  apply (retry_agrees_with_retryOnException Util.tick_now Util.tick_halt
           Util.tick_debug (fun _ w => w) (fun _ : unit => true)
           (Util.tick_params (Some 2) None (Some (Nat.eqb 1)))
           (tick_as_provider (Some 2) None (Some (Nat.eqb 1))) 6 0%nat).
  - reflexivity.
  - reflexivity.
  - reflexivity.
  - reflexivity.
  - reflexivity.
  - intros e. simpl. apply negb_involutive.
  - intros m w. reflexivity.
  - intros x. reflexivity.
Defined.

End ProviderSpec.

(** ** Loading modules by glob *)

Module LoaderSpec.
Import Loader.

Lemma string_drop_app pre s :
  string_drop (String.length pre) (pre +:+ s) = s.
Proof. induction pre as [|c pre IH]; simpl; [reflexivity | exact IH]. Qed.

Lemma replace_prefix_hit pre by_ rest :
  replace_prefix pre by_ (pre +:+ rest) = by_ +:+ rest.
Proof.
  unfold replace_prefix. rewrite starts_with_app, string_drop_app.
  reflexivity.
Qed.

Lemma ends_with_spec suf s :
  ends_with suf s = true <-> exists stem, s = stem +:+ suf.
Proof.
  split.
  - induction s as [|c s IH]; cbn [ends_with].
    + destruct (String.eqb "" suf) eqn:He; [|discriminate].
      apply String.eqb_eq in He as <-. intros _. exists "". reflexivity.
    + destruct (String.eqb (String c s) suf) eqn:He.
      * apply String.eqb_eq in He as <-. intros _. exists "". reflexivity.
      * intros H. destruct (IH H) as [stem ->].
        exists (String c stem). reflexivity.
  - intros [stem ->]. induction stem as [|c stem IH].
    + destruct suf as [|a suf]; [reflexivity|].
      change ("" +:+ String a suf) with (String a suf). cbn [ends_with].
      rewrite String.eqb_refl. reflexivity.
    + change (String c stem +:+ suf) with (String c (stem +:+ suf)).
      cbn [ends_with].
      destruct (String.eqb (String c (stem +:+ suf)) suf); [reflexivity|].
      exact IH.
Qed.

Lemma toRoots_None ps :
  toRoots ps = None <-> exists p, p ∈ ps /\ toRoot p = None.
Proof.
  induction ps as [|p ps IH]; simpl.
  - split; [discriminate|]. intros (p & Hin & _). inversion Hin.
  - destruct (toRoot p) as [q|] eqn:Hp.
    + destruct (toRoots ps) as [qs|].
      * split; [discriminate|]. intros (p' & Hin & Hn).
        apply elem_of_cons in Hin as [->|Hin]; [congruence|].
        destruct IH as [_ IH]. discriminate IH.
        exists p'. split; assumption.
      * split; [|reflexivity]. intros _.
        destruct IH as [IH _]. destruct (IH eq_refl) as (p' & Hin & Hn).
        exists p'. split; [apply elem_of_cons; right; exact Hin | exact Hn].
    + split; [|reflexivity]. intros _. exists p.
      split; [apply elem_of_cons; left; reflexivity | exact Hp].
Qed.

Section loading_facts.

Local Set Default Proof Using "Type".

Context {Export : Type}.
Variable globby_sync : list string -> list string.
Variable require : string -> list Export.

(** X6.  The path callback of [globToRequire] takes exactly the paths
    that begin with [./] or [!./], and moves each two directories up:
    [./rest] becomes [../../rest], [!./rest] becomes [!../../rest], with
    [rest] untouched. *)
Theorem toRoot_rebases p q :
  toRoot p = Some q <->
    (exists rest, p = "./" +:+ rest /\ q = "../../" +:+ rest)
    \/ (exists rest, p = "!./" +:+ rest /\ q = "!../../" +:+ rest).
Proof.
  unfold toRoot. split.
  - destruct (starts_with "./" p) eqn:H1.
    + apply starts_with_inv in H1 as [rest ->]. simpl orb. cbv iota.
      intros [= <-]. left. exists rest. split; [reflexivity|].
      assert (replace_prefix "!./" "!../../" ("./" +:+ rest) = "./" +:+ rest)
        as -> by reflexivity.
      apply replace_prefix_hit.
    + destruct (starts_with "!./" p) eqn:H2; [|discriminate].
      apply starts_with_inv in H2 as [rest ->]. simpl orb. cbv iota.
      intros [= <-]. right. exists rest. split; [reflexivity|].
      rewrite replace_prefix_hit. reflexivity.
  - intros [(rest & -> & ->)|(rest & -> & ->)].
    + rewrite starts_with_app. simpl orb. cbv iota.
      assert (replace_prefix "!./" "!../../" ("./" +:+ rest) = "./" +:+ rest)
        as -> by reflexivity.
      rewrite replace_prefix_hit. reflexivity.
    + rewrite starts_with_app, orb_true_r.
      rewrite replace_prefix_hit. reflexivity.
Qed.

(** X7.  [globToRequire] throws exactly when one of the paths, or the
    single path, begins with neither [./] nor [!./], and then with the
    message that says so; otherwise it returns. *)
Theorem globToRequire_rejects globPath :
  let paths := match globPath with OnePath p => [p] | ManyPaths ps => ps end in
  (forall m, globToRequire globby_sync require globPath = inl m ->
     m = glob_error)
  /\ ((exists m, globToRequire globby_sync require globPath = inl m) <->
      exists p, p ∈ paths
                /\ starts_with "./" p = false
                /\ starts_with "!./" p = false).
Proof.
  intros paths. unfold globToRequire. fold paths.
  pose proof (toRoots_None paths) as Hn.
  destruct (toRoots paths) as [roots|].
  - split; [discriminate|]. split.
    + intros [m H]. discriminate.
    + intros (p & Hin & H1 & H2).
      destruct Hn as [_ Hn]. discriminate Hn.
      exists p. split; [exact Hin|].
      unfold toRoot. rewrite H1, H2. reflexivity.
  - split; [intros m [= <-]; reflexivity|]. split.
    + intros _. destruct Hn as [Hn _].
      destruct (Hn eq_refl) as (p & Hin & Hp). exists p.
      split; [exact Hin|]. unfold toRoot in Hp.
      destruct (starts_with "./" p), (starts_with "!./" p);
        try discriminate. split; reflexivity.
    + intros _. eexists. reflexivity.
Qed.

(** X8.  Of the files the patterns match, [globToRequire] loads the ones
    whose name ends in [.js] and no other as soon as there is one such
    file, and all of them when there is none; the exports come in the
    order of the files.  So a [.ts] source is not loaded beside its
    build. *)
Theorem globToRequire_prefers_js globPath roots :
  toRoots (match globPath with OnePath p => [p] | ManyPaths ps => ps end)
    = Some roots ->
  let files := globby_sync roots in
  let js := fun f => exists stem, f = stem +:+ ".js" in
  exists loaded,
    globToRequire globby_sync require globPath
      = inr (concat (require <$> loaded))
    /\ sublist loaded files
    /\ (forall f, f ∈ loaded <->
          f ∈ files /\ (js f \/ forall g, g ∈ files -> ~ js g)).
Proof.
  intros Hr files js. unfold globToRequire. rewrite Hr. fold files.
  exists (kept files). split; [reflexivity|].
  unfold kept.
  assert (forall f, f ∈ List.filter (ends_with ".js") files
                    <-> f ∈ files /\ js f) as Hf.
  { intros f. rewrite !list_elem_of_In, List.filter_In, ends_with_spec.
    reflexivity. }
  destruct (List.filter (ends_with ".js") files) as [|f0 fs] eqn:Hfilter.
  - simpl. split; [reflexivity|]. intros f. split.
    + intros Hin. split; [exact Hin|]. right. intros g Hg Hjs.
      assert (g ∈ @nil string) as Hno by (apply Hf; split; assumption).
      inversion Hno.
    + intros [Hin _]. exact Hin.
  - simpl. rewrite <- Hfilter in *. split.
    + clear. induction files as [|f files IH]; simpl; [constructor|].
      destruct (ends_with ".js" f); [constructor|constructor]; exact IH.
    + intros f. rewrite Hf. split.
      * intros [Hin Hjs]. split; [exact Hin | left; exact Hjs].
      * intros [Hin [Hjs|Hnone]]; [split; assumption|].
        exfalso. apply (Hnone f0).
        -- apply (Hf f0). rewrite Hfilter. apply elem_of_cons. left. reflexivity.
        -- apply (Hf f0). rewrite Hfilter. apply elem_of_cons. left. reflexivity.
Qed.

End loading_facts.

Lemma globToRequire_prefers_js_witness :
  exists loaded,
    globToRequire demo_globby demo_require
      (ManyPaths ["./**/*.entity.*"; "!./**/abstract*"])
      = inr (concat (demo_require <$> loaded))
    /\ sublist loaded
         (demo_globby ["../../**/*.entity.*"; "!../../**/abstract*"])
    /\ (forall f, f ∈ loaded <->
          f ∈ demo_globby ["../../**/*.entity.*"; "!../../**/abstract*"]
          /\ ((exists stem, f = stem +:+ ".js")
              \/ forall g,
                   g ∈ demo_globby ["../../**/*.entity.*";
                                    "!../../**/abstract*"] ->
                   ~ exists stem, g = stem +:+ ".js")).
Proof.
  apply (globToRequire_prefers_js demo_globby demo_require
           (ManyPaths ["./**/*.entity.*"; "!./**/abstract*"])
           ["../../**/*.entity.*"; "!../../**/abstract*"]).
  reflexivity.
Defined.

Example load_entities :
  globToRequire demo_globby demo_require
    (ManyPaths ["./**/*.entity.*"; "!./**/abstract*"])
  = inr ["UserEntity"; "UserRole"]
  /\ globToRequire demo_globby demo_require (OnePath "src/**/*.js")
     = inl glob_error.
Proof. split; reflexivity. Qed.

End LoaderSpec.

(** ** The server's public address *)

Module ServerIpSpec.
Import Https ServerIp.

Section server_ip_facts.

Local Set Default Proof Using "Type".

Context {Rng : Type}.
Variable qs_stringify : Obj -> string.
Variable race : HttpsRequestParams -> World Rng -> RaceResult.

Local Abbreviation ask := (getServerIp qs_stringify race).

(** X9.  On a service whose HTTP client was never set up, and the one
    the container injects is such until someone calls [setupInstance],
    [getServerIp] sends nothing: it logs "failed to acquire server ip
    address" with the "must be configured" exception, and resolves with
    the address it had, which is none. *)
Theorem getServerIp_without_setup this w :
  instance (httpsService this) = None ->
  truthy_got (serverIp this) = false ->
  ask this w =
    Some {| returned := serverIp this; service := this;
            errors := [(ip_failure,
                        InternalServerErrorException not_configured)];
            ip_after := w; ip_sent := [] |}.
Proof.
  intros Hi Hf. unfold getServerIp, get, request. rewrite Hf, Hi.
  reflexivity.
Qed.

(** X10.  [getServerIp] always resolves, and never with an exception: a
    failed request is logged once, under "failed to acquire server ip
    address", and leaves the service as it was; otherwise nothing is
    logged and the service remembers what it resolves with.  At most one
    request goes out. *)
Theorem getServerIp_never_throws this w :
  exists c, ask this w = Some c
    /\ (length (ip_sent c) <= 1)%nat
    /\ ((errors c = [] /\ serverIp (service c) = returned c
         /\ httpsService (service c) = httpsService this)
        \/ (exists e, errors c = [(ip_failure, e)]
                      /\ service c = this
                      /\ returned c = serverIp this)).
Proof.
  unfold getServerIp. destruct (truthy_got (serverIp this)).
  - eexists. split; [reflexivity|]. simpl. split; [lia|].
    left. repeat split; reflexivity.
  - unfold get, request. destruct (instance (httpsService this)) as [inst|].
    + destruct (HttpsSpec.transformParams_total qs_stringify
                  (httpsService this)
                  (set_timeout
                     (Some (num_or (timeout (set_url ipify
                        (set_method "GET" (set_timeout (Some 5000) noParams))))
                        (defaults_timeout inst)))
                     (set_url ipify
                        (set_method "GET" (set_timeout (Some 5000) noParams))))
                  w eq_refl) as (p1 & w1 & ->).
      destruct (attempt race (httpsService this)
                  (set_cancelToken (Some {| cancelled := false |}) p1) w1)
        as [[errorPrefix res|res] p'].
      * eexists. split; [reflexivity|]. simpl. split; [lia|].
        right. eexists. repeat split; reflexivity.
      * destruct (match returnType p' with
                  | Some t => Some t
                  | None => defaultReturnType (httpsService this)
                  end) as [[|]|];
          (eexists; split; [reflexivity|]; simpl; split; [lia|];
           left; repeat split; reflexivity).
    + eexists. split; [reflexivity|]. simpl. split; [lia|].
      right. eexists. repeat split; reflexivity.
Qed.

(** X11.  Once [getServerIp] has resolved with a truthy address, every
    later call on the service it left resolves with that address, in
    any state of the world, without a request and without a log line. *)
Theorem getServerIp_caches this w c w' :
  ask this w = Some c ->
  truthy_got (returned c) = true ->
  ask (service c) w' =
    Some {| returned := returned c; service := service c; errors := [];
            ip_after := w'; ip_sent := [] |}.
Proof.
  intros Hc Ht.
  destruct (getServerIp_never_throws this w) as (c' & Hc' & _ & Hcase).
  rewrite Hc in Hc'. injection Hc' as <-.
  assert (serverIp (service c) = returned c) as Hs.
  { destruct Hcase as [(_ & Hs & _)|(e & He & Hsv & Hr)]; [exact Hs|].
    exfalso. revert Hc. unfold getServerIp.
    destruct (truthy_got (serverIp this)) eqn:Hg.
    - intros [= <-]. discriminate He.
    - rewrite Hr, Hg in Ht. discriminate Ht. }
  unfold getServerIp. rewrite Hs, Ht. reflexivity.
Qed.

(** X12.  The request [getServerIp] sends is a GET with a timeout of
    5000 ms, whatever default the client was set up with, for
    [https://api64.ipify.org] behind the base URL of the client, if it
    has one. *)
Theorem getServerIp_request this w c h :
  ask this w = Some c ->
  h ∈ ip_sent c ->
  method h = "GET"
  /\ timeout h = Some 5000
  /\ url h = (if truthy_str (baseUrl (httpsService this))
              then default "" (baseUrl (httpsService this)) +:+ ipify
              else ipify).
Proof.
  unfold getServerIp. destruct (truthy_got (serverIp this)).
  { intros [= <-] Hin. inversion Hin. }
  unfold get, request. destruct (instance (httpsService this)) as [inst|].
  2: { intros [= <-] Hin. inversion Hin. }
  destruct (transformParams _ _ _ _) as [[p1 w1]|] eqn:Ht; [|discriminate].
  apply HttpsSpec.transformParams_scalars in Ht
    as (Hm & _ & Hto & _ & _ & _ & Hu).
  simpl in Hm, Hto, Hu. injection Hu as Hu.
  assert (forall c0 : IpCall Rng, ip_sent c0 = [set_cancelToken (Some {| cancelled := false |}) p1] ->
                     h ∈ ip_sent c0 ->
                     method h = "GET" /\ timeout h = Some 5000
                     /\ url h = (if truthy_str (baseUrl (httpsService this))
                                 then default "" (baseUrl (httpsService this))
                                      +:+ ipify
                                 else ipify)) as Hall.
  { intros c0 -> Hin. apply list_elem_of_singleton in Hin as ->.
    simpl. rewrite Hm, Hto, <- Hu. repeat split; reflexivity. }
  destruct (attempt race (httpsService this)
              (set_cancelToken (Some {| cancelled := false |}) p1) w1)
    as [[errorPrefix res|res] p'].
  - intros [= <-]. apply Hall. reflexivity.
  - destruct (match returnType p' with
              | Some t => Some t
              | None => defaultReturnType (httpsService this)
              end) as [[|]|]; intros [= <-]; apply Hall; reflexivity.
Qed.

End server_ip_facts.

Lemma getServerIp_without_setup_witness :
  getServerIp demo_qs ip_race
    {| serverIp := None;
       httpsService := newHttpsService {| HTTPS_DEFAULT_TIMEOUT := 60000 |} |}
    demo_world
  = Some {| returned := None;
            service :=
              {| serverIp := None;
                 httpsService :=
                   newHttpsService {| HTTPS_DEFAULT_TIMEOUT := 60000 |} |};
            errors := [(ip_failure,
                        InternalServerErrorException not_configured)];
            ip_after := demo_world; ip_sent := [] |}.
Proof.
  apply (getServerIp_without_setup demo_qs ip_race
           {| serverIp := None;
              httpsService :=
                newHttpsService {| HTTPS_DEFAULT_TIMEOUT := 60000 |} |}
           demo_world).
  - reflexivity.
  - reflexivity.
Defined.

Lemma getServerIp_caches_witness :
  exists c,
    plain_first = Some c
    /\ returned c = Some (GotData (VStr "203.0.113.7"))
    /\ getServerIp demo_qs ip_race (service c) demo_world
       = Some {| returned := returned c; service := service c; errors := [];
                 ip_after := demo_world; ip_sent := [] |}.
Proof.
  destruct plain_first as [c|] eqn:H.
  - assert (returned c = Some (GotData (VStr "203.0.113.7"))) as Hr.
    { vm_compute in H. injection H as <-. reflexivity. }
    exists c. split; [reflexivity|]. split; [exact Hr|].
    apply (getServerIp_caches demo_qs ip_race
             {| serverIp := None; httpsService := plain_service |}
             plain_ready c demo_world H).
    rewrite Hr. reflexivity.
  - vm_compute in H. discriminate H.
Defined.

Lemma getServerIp_request_witness :
  exists c h,
    plain_first = Some c /\ ip_sent c = [h]
    /\ method h = "GET" /\ timeout h = Some 5000 /\ url h = ipify.
Proof.
  destruct plain_first as [c|] eqn:H.
  - assert (exists h, ip_sent c = [h]) as [h Hh].
    { vm_compute in H. injection H as <-. eexists. reflexivity. }
    exists c, h. split; [reflexivity|]. split; [exact Hh|].
    apply (getServerIp_request demo_qs ip_race
             {| serverIp := None; httpsService := plain_service |}
             plain_ready c h H).
    rewrite Hh. apply list_elem_of_singleton. reflexivity.
  - vm_compute in H. discriminate H.
Defined.

End ServerIpSpec.

(** ** The key-value cache *)

Module RedisSpec.
Import Redis.

Section redis_facts.

Local Set Default Proof Using "Type".

Context {V J Server Err : Type}.
Variable JSON_stringify : V -> string.
Variable JSON_parse : option string -> J.
Variable redis_set :
  RedisClient -> string -> string -> Z -> Server -> option Err * Server.
Variable redis_get :
  RedisClient -> string -> Server -> (Err + option string) * Server.

Local Abbreviation set_key := (setKey JSON_stringify redis_set).
Local Abbreviation get_key := (getKey JSON_parse redis_get).

(** X13.  A service constructed under settings whose [REDIS_HOST] is
    falsy, the empty string included, has no client, and only such a
    service: its [setKey] and [getKey] are rejected by the DISABLED
    check, before any line is logged and any command sent, and no call
    of a service that has a client is rejected that way. *)
Theorem disabled_iff_no_host s (w : World Server) this w1 :
  setupRedis s w = (this, w1) ->
  (truthy_str (REDIS_HOST s) = false ->
     server w1 = server w
     /\ log w1 = (log w ++ [Warning "Redis client DISABLED"])%list
     /\ forall s' key value expiration w',
          set_key s' this key value expiration w' = (inl Disabled, w')
          /\ get_key this key w' = (inl Disabled, w'))
  /\ (truthy_str (REDIS_HOST s) = true ->
        forall s' key value expiration w',
          fst (set_key s' this key value expiration w') <> inl Disabled
          /\ fst (get_key this key w') <> inl Disabled).
Proof.
  unfold setupRedis. destruct (truthy_str (REDIS_HOST s)).
  - intros [= <- <-]. split; [discriminate|]. intros _ s' key value e w'.
    unfold setKey, getKey. simpl.
    destruct (redis_set _ _ _ _ _) as [[er|] srv];
      destruct (redis_get _ _ _) as [[er'|reply] srv']; simpl;
      split; discriminate.
  - intros [= <- <-]. split; [|discriminate]. intros _.
    repeat split; reflexivity.
Qed.

(** X14.  [setKey] takes an expiration of 0 for no expiration given: the
    key is stored for the default lifetime, which the settings start
    out with as one day in milliseconds.  Any other expiration is used
    as the default would be. *)
Theorem zero_expiration_is_default s this key value w e :
  set_key s this key value (Some 0) w = set_key s this key value None w
  /\ (e <> 0 ->
      set_key s this key value (Some e) w =
      set_key {| REDIS_HOST := REDIS_HOST s; REDIS_PORT := REDIS_PORT s;
                 REDIS_PASSWORD := REDIS_PASSWORD s;
                 REDIS_DEFAULT_EXPIRATION := e |} this key value None w)
  /\ REDIS_DEFAULT_EXPIRATION initialSettings = 86400000.
Proof.
  split; [reflexivity|]. split; [|reflexivity].
  intros He. unfold setKey. simpl.
  destruct (e =? 0) eqn:Hz; [apply Z.eqb_eq in Hz; contradiction|].
  reflexivity.
Qed.

(** X15.  What was set is read back: when the server answers a [get]
    with the string last [set] under the key, a [getKey] that follows a
    [setKey] which was not rejected resolves with [JSON.parse] of
    [JSON.stringify] of the value, and the two calls have logged one
    line each. *)
Theorem getKey_after_setKey s this key value expiration w w1 :
  (forall client sv px srv srv1,
     redis_set client key sv px srv = (None, srv1) ->
     fst (redis_get client key srv1) = inr (Some sv)) ->
  setKey JSON_stringify redis_set s this key value expiration w
    = (inr tt, w1) ->
  exists w2,
    getKey JSON_parse redis_get this key w1
      = (inr (JSON_parse (Some (JSON_stringify value))), w2)
    /\ log w2 =
       (log w ++
        [Debug ("Redis: Setting key " +:+ key +:+ " as "
                +:+ JSON_stringify value +:+ "...");
         Debug ("Redis: Reading key " +:+ key +:+ "...")])%list.
Proof.
  intros Hsrv. unfold setKey, getKey.
  destruct (redisClient this) as [client|]; [|discriminate].
  simpl.
  destruct (redis_set client key (JSON_stringify value)
              (num_or expiration (REDIS_DEFAULT_EXPIRATION s)) (server w))
    as [[er|] srv1] eqn:Hset; [discriminate|].
  intros [= <-]. simpl.
  pose proof (Hsrv _ _ _ _ _ Hset) as Hget.
  destruct (redis_get client key srv1) as [r srv2]. simpl in Hget.
  subst r. eexists. split; [reflexivity|]. simpl.
  rewrite <- app_assoc. reflexivity.
Qed.

End redis_facts.

Lemma disabled_iff_no_host_witness :
  (truthy_str (REDIS_HOST initialSettings) = false ->
     server (snd (setupRedis initialSettings demo_start)) = server demo_start
     /\ log (snd (setupRedis initialSettings demo_start))
        = (log demo_start ++ [Warning "Redis client DISABLED"])%list
     /\ forall s' key value expiration w',
          setKey (fun v : string => v) map_set s'
            (fst (setupRedis initialSettings demo_start)) key value
            expiration w' = (inl Disabled, w')
          /\ getKey (fun r : option string => r) map_get
               (fst (setupRedis initialSettings demo_start)) key w'
             = (inl Disabled, w'))
  /\ (truthy_str (REDIS_HOST initialSettings) = true ->
        forall s' key value expiration w',
          fst (setKey (fun v : string => v) map_set s'
                 (fst (setupRedis initialSettings demo_start)) key value
                 expiration w') <> inl Disabled
          /\ fst (getKey (fun r : option string => r) map_get
                    (fst (setupRedis initialSettings demo_start)) key w')
             <> inl Disabled).
Proof.
  apply (disabled_iff_no_host (fun v : string => v)
           (fun r : option string => r) map_set map_get
           initialSettings demo_start
           (fst (setupRedis initialSettings demo_start))
           (snd (setupRedis initialSettings demo_start))).
  reflexivity.
Defined.

Lemma getKey_after_setKey_witness :
  exists w1 w2,
    setKey (fun v : string => v) map_set demo_settings
      (fst (setupRedis demo_settings demo_start)) "greeting" "hello" None
      (snd (setupRedis demo_settings demo_start)) = (inr tt, w1)
    /\ server w1 = {["greeting" := ("hello", 86400000)]}
    /\ getKey (fun r : option string => r) map_get
         (fst (setupRedis demo_settings demo_start)) "greeting" w1
       = (inr (Some "hello"), w2)
    /\ log w2 =
       (log (snd (setupRedis demo_settings demo_start)) ++
        [Debug ("Redis: Setting key " +:+ "greeting" +:+ " as "
                +:+ "hello" +:+ "...");
         Debug ("Redis: Reading key " +:+ "greeting" +:+ "...")])%list.
Proof.
  eexists.
  destruct (getKey_after_setKey (fun v : string => v)
              (fun r : option string => r) map_set map_get
              demo_settings (fst (setupRedis demo_settings demo_start))
              "greeting" "hello" None
              (snd (setupRedis demo_settings demo_start))
              _
              (fun client sv px srv srv1 H =>
                 match H in _ = y
                   return fst (map_get client "greeting" (snd y))
                          = inr (Some sv)
                 with eq_refl => f_equal inr (f_equal (fmap fst)
                   (lookup_insert_eq srv "greeting" (sv, px))) end)
              eq_refl) as [w2 [Hg Hl]].
  exists w2. split; [reflexivity|]. split; [reflexivity|].
  split; [exact Hg | exact Hl].
Defined.

End RedisSpec.

(** ** The configuration cache *)

Module ConfigSpec.
Import Config.

Section config_facts.

Local Set Default Proof Using "Type".

Context {V Ctor VErr : Type}.
Variable plainToClass : Ctor -> gmap string EnvVal -> gmap string V.
Variable validateOrReject : gmap string V -> option VErr.
Variable Object_prototype : string -> option V.

Local Abbreviation populate := (populateConfig plainToClass validateOrReject).

Lemma collect_last_given constructors env config c k :
  collect plainToClass validateOrReject constructors env config = inr c ->
  c !! k = match last_given plainToClass constructors env k with
           | Some v => Some v
           | None => config !! k
           end.
Proof.
  revert config. induction constructors as [|ctor rest IH]; intros config.
  - simpl. intros [= <-]. reflexivity.
  - simpl. destruct (validateOrReject (plainToClass ctor env)); [discriminate|].
    intros H. rewrite (IH _ H).
    destruct (last_given plainToClass rest env k); [reflexivity|].
    rewrite lookup_union.
    destruct (plainToClass ctor env !! k), (config !! k); reflexivity.
Qed.

Lemma collect_first_invalid constructors env config e :
  collect plainToClass validateOrReject constructors env config = inl e ->
  exists before c after,
    constructors = (before ++ c :: after)%list
    /\ (forall c', c' ∈ before ->
          validateOrReject (plainToClass c' env) = None)
    /\ validateOrReject (plainToClass c env) = Some e.
Proof.
  revert config. induction constructors as [|ctor rest IH]; intros config.
  - discriminate.
  - simpl. destruct (validateOrReject (plainToClass ctor env)) as [e'|] eqn:Hv.
    + intros [= <-]. exists [], ctor, rest.
      split; [reflexivity|]. split; [|exact Hv].
      intros c' Hin. inversion Hin.
    + intros H. destruct (IH _ H) as (before & c & after & -> & Hb & Hc).
      exists (ctor :: before), c, after. split; [reflexivity|].
      split; [|exact Hc]. intros c' Hin.
      apply elem_of_cons in Hin as [->|Hin]; [exact Hv | apply Hb, Hin].
Qed.

Lemma collect_all_valid constructors env config :
  (forall c, c ∈ constructors ->
     validateOrReject (plainToClass c env) = None) ->
  exists c, collect plainToClass validateOrReject constructors env config
            = inr c.
Proof.
  revert config. induction constructors as [|ctor rest IH]; intros config Hall.
  - eexists. reflexivity.
  - simpl. rewrite (Hall ctor) by (apply elem_of_cons; left; reflexivity).
    apply IH. intros c Hin. apply Hall, elem_of_cons. right. exact Hin.
Qed.

(** X16.  Before the cache is populated [get] throws "failed to acquire
    config cache".  Once [populateConfig] has set it, [get] returns, for
    each variable, what the last configuration class that has the
    variable gives it, and what every object inherits under that name
    when no class has it; nothing of an earlier cache is left. *)
Theorem populated_cache_is_last_class constructors process_env parsed old
    cache variable :
  populate constructors process_env parsed old = CacheSet cache ->
  get Object_prototype None variable = inl no_cache
  /\ get Object_prototype cache variable =
     inr match last_given plainToClass constructors
                 (envVariables process_env parsed) variable with
         | Some v => Some v
         | None => Object_prototype variable
         end.
Proof.
  unfold populateConfig.
  destruct (collect _ _ _ _ _) as [e|c] eqn:Hc; [discriminate|].
  intros [= <-]. split; [reflexivity|]. simpl.
  rewrite (collect_last_given _ _ _ _ variable Hc), lookup_empty.
  destruct (last_given _ _ _ _); reflexivity.
Qed.

(** X17.  [populateConfig] sets the cache exactly when every
    configuration class gives a valid instance.  Otherwise the process
    prints the error of the first class, in order, whose instance is
    rejected, and exits with code 1, the cache as it was. *)
Theorem invalid_config_exits constructors process_env parsed old :
  let env := envVariables process_env parsed in
  ((forall c, c ∈ constructors ->
      validateOrReject (plainToClass c env) = None) <->
   exists config,
     populate constructors process_env parsed old = CacheSet (Some config))
  /\ forall e code cache,
       populate constructors process_env parsed old = Exited e code cache ->
       code = 1 /\ cache = old
       /\ exists before c after,
            constructors = (before ++ c :: after)%list
            /\ (forall c', c' ∈ before ->
                  validateOrReject (plainToClass c' env) = None)
            /\ validateOrReject (plainToClass c env) = Some e.
Proof.
  intros env. unfold populateConfig. fold env. split.
  - split.
    + intros Hall. destruct (collect_all_valid constructors env ∅ Hall)
        as [c ->]. exists c. reflexivity.
    + intros [config H] c Hin.
      destruct (collect _ _ _ _ _) as [e|cfg] eqn:Hc; [discriminate|].
      clear H. revert Hc. generalize (∅ : gmap string V).
      induction constructors as [|ctor rest IH]; intros config0 Hc.
      * inversion Hin.
      * simpl in Hc.
        destruct (validateOrReject (plainToClass ctor env)) eqn:Hv;
          [discriminate|].
        apply elem_of_cons in Hin as [->|Hin]; [exact Hv|].
        exact (IH Hin _ Hc).
  - intros e code cache.
    destruct (collect _ _ _ _ _) as [e'|cfg] eqn:Hc; [|discriminate].
    intros [= <- <- <-]. split; [reflexivity|]. split; [reflexivity|].
    exact (collect_first_invalid _ _ _ _ Hc).
Qed.

End config_facts.

Lemma populated_cache_is_last_class_witness :
  get (V := string) (fun _ => None) None "NAME" = inl no_cache
  /\ get (fun _ => None)
       (Some ({["NAME" := "orders"; "PORT" := "8080"]} : gmap string string))
       "NAME"
     = inr match last_given demo_class [false; true]
                   (envVariables {["APP_NAME" := "orders"; "PORT" := "8080"]}
                      None) "NAME" with
           | Some v => Some v
           | None => None
           end.
Proof.
  apply (populated_cache_is_last_class demo_class demo_validate
           (fun _ => None) [false; true]
           {["APP_NAME" := "orders"; "PORT" := "8080"]} None None
           (Some {["NAME" := "orders"; "PORT" := "8080"]}) "NAME").
  vm_compute. reflexivity.
Defined.

Example config_example :
  populateConfig demo_class demo_validate [false; true]
    {["APP_NAME" := "orders"; "PORT" := "8080"]} None None
  = CacheSet (Some {["NAME" := "orders"; "PORT" := "8080"]})
  /\ populateConfig demo_class demo_validate [false; true]
       {["PORT" := "8080"]} None (Some {["NAME" := "old"]})
     = Exited "NAME should not be empty" 1 (Some {["NAME" := "old"]}).
Proof. split; vm_compute; reflexivity. Qed.

End ConfigSpec.

(** ** More on the HTTP client *)

Module HttpsMore.
Import Https HttpsOutcome.

Section client_facts.

Local Set Default Proof Using "Type".

Context {Rng : Type}.
Variable newUserAgent : Rng -> string * Rng.
Variable qs_stringify : Obj -> string.
Variable race : HttpsRequestParams -> World Rng -> RaceResult.

Local Abbreviation compose := (transformParams qs_stringify).
Local Abbreviation call := (request qs_stringify race).

(** A call on a configured service, by the way the race ended. *)
Lemma request_cases this inst p w c :
  instance this = Some inst ->
  call this p w = Some c ->
  exists p1 w1,
    compose this (raw_of inst p) w = Some (p1, w1)
    /\ sent c = [handed_of p1] /\ after c = w1
    /\ match race (handed_of p1) w1 with
       | Responded res =>
           descriptor c = handed_of p1
           /\ outcome c =
              match first_set (validateStatus p) (defaultValidator this) with
              | Some validator =>
                  if validator (status res)
                  then match first_set (returnType p)
                               (defaultReturnType this) with
                       | Some DATA => ReturnsData (res_data res)
                       | _ => ReturnsResponse res
                       end
                  else failure RequestFailed (raw_of inst p) (Some res)
              | None => failure RequestException (raw_of inst p) (Some res)
              end
       | TimerFirst =>
           descriptor c
           = set_cancelToken (Some {| cancelled := true |}) (handed_of p1)
           /\ outcome c = failure RequestTimeout (raw_of inst p) None
       | Raised message =>
           descriptor c = handed_of p1
           /\ outcome c =
              failure (if includes "timeout" message
                       then RequestTimeout else RequestException)
                (raw_of inst p) None
       end.
Proof.
  intros Hi Hc.
  destruct (compose this (raw_of inst p) w) as [[p1 w1]|] eqn:Ht.
  2: { unfold request in Hc. rewrite Hi in Hc. fold (raw_of inst p) in Hc.
       rewrite Ht in Hc. discriminate Hc. }
  rewrite (HttpsSpec.request_configured qs_stringify race this inst p w p1 w1
             Hi Ht) in Hc.
  destruct (HttpsSpec.transformParams_scalars _ _ _ _ _ _ Ht)
    as (_ & _ & _ & Hv & Hr & _).
  exists p1, w1. split; [reflexivity|].
  unfold attempt in Hc. unfold failure, first_set.
  change (validateStatus (handed_of p1)) with (validateStatus p1) in Hc.
  change (validateStatus (raw_of inst p)) with (validateStatus p) in Hv.
  change (returnType (raw_of inst p)) with (returnType p) in Hr.
  rewrite Hv in Hc.
  destruct (race (handed_of p1) w1) as [res| |message].
  - destruct (validateStatus p) as [v|].
    + destruct (v (status res)); simpl in Hc; injection Hc as <-; simpl;
        rewrite ?Hr; repeat split; reflexivity.
    + destruct (defaultValidator this) as [v|].
      * destruct (v (status res)); simpl in Hc; injection Hc as <-; simpl;
          rewrite ?Hr; repeat split; reflexivity.
      * simpl in Hc. injection Hc as <-. repeat split; reflexivity.
  - simpl in Hc. injection Hc as <-. repeat split; reflexivity.
  - destruct (includes "timeout" message); simpl in Hc; injection Hc as <-;
      repeat split; reflexivity.
Qed.

(** X18.  On a service that has been set up, a response is judged by
    the validator of the call, else by the one of the options, else by
    "status below 400"; when it passes, the call returns its data or the
    whole response by the return type of the call, else by the one of
    the options, else its data; when it does not, the call throws
    "Request failed" with the status, headers and data of the
    response. *)
Theorem response_is_judged_then_shaped this0 opts w0 this opts' w0' p w c h res :
  setupInstance newUserAgent this0 opts w0 = (this, opts', w0') ->
  call this p w = Some c ->
  sent c = [h] ->
  race h (after c) = Responded res ->
  let validator :=
    default (default (fun s => s <? 400) (opt_defaultValidator opts))
      (validateStatus p) in
  let returnType' :=
    default (default DATA (opt_defaultReturnType opts)) (returnType p) in
  exists inst,
    instance this = Some inst
    /\ outcome c =
       if validator (status res) then shaped returnType' res
       else failure RequestFailed (raw_of inst p) (Some res).
Proof.
  intros Hs Hc Hsent Hrace validator returnType'.
  assert (exists inst, instance this = Some inst
            /\ defaultValidator this
               = Some (default (fun s => s <? 400) (opt_defaultValidator opts))
            /\ defaultReturnType this
               = Some (default DATA (opt_defaultReturnType opts)))
    as (inst & Hi & Hdv & Hdr).
  { unfold setupInstance in Hs.
    destruct (match opt_baseHeaders opts with
              | Some l => (l, w0)
              | None => alloc ∅ w0
              end) as [bh w1].
    injection Hs as <- _ _. simpl. eexists. split; [reflexivity|].
    destruct (opt_defaultValidator opts); split; reflexivity. }
  exists inst. split; [exact Hi|].
  destruct (request_cases this inst p w c Hi Hc)
    as (p1 & w1 & _ & Hsent' & Hafter & Hcase).
  rewrite Hsent' in Hsent. injection Hsent as <-. rewrite Hafter in Hrace.
  rewrite Hrace, Hdv, Hdr in Hcase. destruct Hcase as [_ ->].
  unfold validator, returnType', first_set, shaped.
  destruct (validateStatus p) as [v|]; simpl;
    destruct (returnType p) as [[|]|]; simpl;
    try destruct (opt_defaultReturnType opts) as [[|]|]; reflexivity.
Qed.

(** X19.  The timeout of a call on a service that has been set up is the
    one of the descriptor, else the default of the options, else the
    default of the settings, each passed over when it is 0 or absent.
    It is what the transport is given, and it is written back into the
    caller's descriptor. *)
Theorem timeout_precedence this0 opts w0 this opts' w0' p w c :
  setupInstance newUserAgent this0 opts w0 = (this, opts', w0') ->
  call this p w = Some c ->
  let effective :=
    num_or (timeout p)
      (num_or (opt_defaultTimeout opts)
         (HTTPS_DEFAULT_TIMEOUT (settings this0))) in
  timeout (descriptor c) = Some effective
  /\ exists h, sent c = [h] /\ timeout h = Some effective.
Proof.
  intros Hs Hc effective.
  assert (instance this
          = Some {| defaults_timeout :=
                      num_or (opt_defaultTimeout opts)
                        (HTTPS_DEFAULT_TIMEOUT (settings this0));
                    rejectUnauthorized := negb (opt_ignoreHttpsErrors opts) |})
    as Hi.
  { unfold setupInstance in Hs.
    destruct (match opt_baseHeaders opts with
              | Some l => (l, w0)
              | None => alloc ∅ w0
              end) as [bh w1].
    injection Hs as <- _ _. reflexivity. }
  destruct (request_cases this _ p w c Hi Hc)
    as (p1 & w1 & Ht & Hsent & _ & Hcase).
  destruct (HttpsSpec.transformParams_scalars _ _ _ _ _ _ Ht)
    as (_ & _ & Hto & _).
  simpl in Hto. fold effective in Hto.
  split.
  - destruct (race (handed_of p1) w1); destruct Hcase as [-> _]; exact Hto.
  - exists (handed_of p1). split; [exact Hsent | exact Hto].
Qed.

(** X20.  [request] writes to no object that was there before the call:
    the caller's headers, body, form and query objects, and the base
    objects of the service, hold afterwards what they held; it draws no
    randomness either.  What it changes is the descriptor. *)
Theorem request_keeps_objects this p w c :
  closed w this p ->
  call this p w = Some c ->
  rng (after c) = rng w
  /\ forall l, l ∈ dom (heap w) -> heap (after c) !! l = heap w !! l.
Proof.
  intros Hcl Hc.
  assert (extends w (after c)) as [Hsub Hrng].
  { destruct (instance this) as [inst|] eqn:Hi.
    - destruct (request_cases this inst p w c Hi Hc)
        as (p1 & w1 & Ht & _ & -> & _).
      assert (closed w this (raw_of inst p)) as Hcl' by exact Hcl.
      destruct (HttpsSpec.transformParams_spec qs_stringify this
                  (raw_of inst p) w p1 w1 Hcl' Ht) as (He & _).
      exact He.
    - unfold request in Hc. rewrite Hi in Hc. injection Hc as <-.
      apply HttpsSpec.extends_refl. }
  split; [exact Hrng|]. intros l Hl.
  apply elem_of_dom in Hl as [o Ho].
  rewrite Ho. exact (lookup_weaken _ _ _ _ Ho Hsub).
Qed.

(** X21.  [request] leaves the composed URL in the caller's descriptor,
    so a descriptor passed to [request] a second time is composed again
    from there: behind a base URL [B] the second request goes to
    [B ++ B ++ url] when there are no replacements. *)
Theorem reused_descriptor_is_composed_again this inst B p w c c' :
  instance this = Some inst ->
  baseUrl this = Some B ->
  call this p w = Some c ->
  call this (descriptor c) (after c) = Some c' ->
  exists h h',
    sent c = [h] /\ sent c' = [h']
    /\ url (descriptor c) = url h
    /\ replaceEach (default [] (replacements p)) (B +:+ url p) = Some (url h)
    /\ replaceEach (default [] (replacements p)) (B +:+ url h)
       = Some (url h')
    /\ (replacements p = None -> url h' = B +:+ B +:+ url p).
Proof.
  intros Hi HB Hc Hc'.
  assert (forall u, (if truthy_str (baseUrl this)
                     then default "" (baseUrl this) +:+ u else u) = B +:+ u)
    as Hjoin.
  { intros u. rewrite HB. destruct B; reflexivity. }
  destruct (request_cases this inst p w c Hi Hc)
    as (p1 & w1 & Ht & Hsent & _ & Hcase).
  destruct (HttpsSpec.transformParams_scalars _ _ _ _ _ _ Ht)
    as (_ & Hr & _ & _ & _ & _ & Hu).
  destruct (request_cases this inst _ _ c' Hi Hc')
    as (p2 & w2 & Ht' & Hsent' & _ & _).
  destruct (HttpsSpec.transformParams_scalars _ _ _ _ _ _ Ht')
    as (_ & _ & _ & _ & _ & _ & Hu').
  rewrite Hjoin in Hu, Hu'. simpl in Hu, Hu', Hr.
  assert (url (descriptor c) = url p1 /\ replacements (descriptor c)
          = replacements p1) as [Hud Hrd].
  { destruct (race (handed_of p1) w1); destruct Hcase as [-> _];
      split; reflexivity. }
  rewrite Hud, Hrd, Hr in Hu'.
  exists (handed_of p1), (handed_of p2).
  split; [exact Hsent|]. split; [exact Hsent'|]. split; [exact Hud|].
  split; [exact Hu|]. split; [exact Hu'|].
  intros Hnone. rewrite Hnone in Hu, Hu'. simpl in Hu, Hu'.
  injection Hu as Hu. injection Hu' as Hu'.
  change (url (handed_of p2)) with (url p2). rewrite <- Hu', <- Hu.
  reflexivity.
Qed.

(** X22.  [setupInstance] keeps the headers object of the options as the
    base headers of the service, creating it in the options when they
    have none, and writes the random user agent into it.  Two services
    set up from the same options therefore share one object: the agent
    drawn for the second is the one the first sends from then on. *)
Theorem setups_share_base_headers thisA thisB opts w this1 opts1 w1 this2
    opts2 w2 :
  opt_randomizeUserAgent opts = true ->
  setupInstance newUserAgent thisA opts w = (this1, opts1, w1) ->
  setupInstance newUserAgent thisB opts1 w1 = (this2, opts2, w2) ->
  baseHeaders this1 = opt_baseHeaders opts1
  /\ baseHeaders this2 = baseHeaders this1
  /\ spread_ref w1 (baseHeaders this1) !! "user-agent"
     = Some (VStr (newUserAgent (rng w)).1)
  /\ spread_ref w2 (baseHeaders this1) !! "user-agent"
     = Some (VStr (newUserAgent (rng w1)).1).
Proof.
  intros Hr H1 H2.
  pose proof (HttpsSpec.setupInstance_user_agent newUserAgent thisA opts w Hr)
    as Hua1.
  rewrite H1 in Hua1. destruct Hua1 as [Hua1 _].
  assert (opt_randomizeUserAgent opts1 = true
          /\ baseHeaders this1 = opt_baseHeaders opts1
          /\ exists bh, opt_baseHeaders opts1 = Some bh) as (Hr1 & Hb1 & bh & Hbh).
  { unfold setupInstance in H1.
    destruct (match opt_baseHeaders opts with
              | Some l => (l, w)
              | None => alloc ∅ w
              end) as [bh w'].
    injection H1 as <- <- _. simpl. split; [exact Hr|].
    split; [reflexivity|]. exists bh. reflexivity. }
  pose proof (HttpsSpec.setupInstance_user_agent newUserAgent thisB opts1 w1 Hr1)
    as Hua2.
  rewrite H2 in Hua2. destruct Hua2 as [Hua2 _].
  assert (baseHeaders this2 = opt_baseHeaders opts1) as Hb2.
  { unfold setupInstance in H2. rewrite Hbh in H2.
    injection H2 as <- _ _. simpl. symmetry. exact Hbh. }
  split; [exact Hb1|]. split; [congruence|]. split; [exact Hua1|].
  rewrite <- Hb1 in Hb2. rewrite <- Hb2. exact Hua2.
Qed.

(** X23.  A configured call cancels its request exactly when the timer
    of the race resolves before the transport answers or raises; an
    error of the transport whose message speaks of a timeout is reported
    as "Request timeout" too, but nothing is cancelled then. *)
Theorem cancelled_iff_timer_first this inst p w c :
  instance this = Some inst ->
  call this p w = Some c ->
  exists h,
    sent c = [h]
    /\ (cancelToken (descriptor c) = Some {| cancelled := true |}
        <-> race h (after c) = TimerFirst)
    /\ (race h (after c) = TimerFirst ->
        outcome c = failure RequestTimeout (raw_of inst p) None)
    /\ (forall message,
          race h (after c) = Raised message ->
          includes "timeout" message = true ->
          outcome c = failure RequestTimeout (raw_of inst p) None
          /\ cancelToken (descriptor c) = Some {| cancelled := false |}).
Proof.
  intros Hi Hc.
  destruct (request_cases this inst p w c Hi Hc)
    as (p1 & w1 & _ & Hsent & -> & Hcase).
  exists (handed_of p1). split; [exact Hsent|].
  destruct (race (handed_of p1) w1) as [res| |message];
    destruct Hcase as [Hd Ho]; rewrite Hd.
  - split; [split; discriminate|]. split; [discriminate|]. discriminate.
  - split; [split; reflexivity|]. split; [intros _; exact Ho|]. discriminate.
  - split; [split; discriminate|]. split; [discriminate|].
    intros m [= <-] Hm. rewrite Hm in Ho. split; [exact Ho | reflexivity].
Qed.

(** X24.  A text body sent through a service that has base data does
    not stay text: it is spread, character by character under the
    indices, over a copy of the base data.  Without base data it is sent
    as it is. *)
Theorem text_body_is_spread this p (w w' : World Rng) p' a s :
  closed w this p ->
  data p = Some (BStr (String a s)) ->
  ascii_only (String a s) = true ->
  form p = None ->
  compose this p w = Some (p', w') ->
  match baseData this with
  | Some bl =>
      exists l, data p' = Some (BObj l)
                /\ deref w' l = string_spread 0 (String a s) ∪ deref w bl
  | None => data p' = Some (BStr (String a s))
  end.
Proof.
  intros Hcl Hd _ Hf Ht.
  destruct (HttpsSpec.transformParams_spec qs_stringify this p w p' w' Hcl Ht)
    as (He & Hcl' & Hv).
  assert (v_data (view w' p')
          = match deref w <$> baseData this with
            | Some bd => Some (inr (string_spread 0 (String a s) ∪ bd))
            | None => Some (inl (String a s))
            end) as Hvd.
  { unfold composeView, applyReplacementsView in Hv.
    assert (v_form (joinBasesView (base_view w this) (view w p)) = None)
      as Hnf by (simpl; rewrite Hf; reflexivity).
    unfold stringifyFormView in Hv. rewrite Hnf in Hv.
    destruct (v_replacements _) as [reps|].
    - destruct (replaceEach reps _) as [u|]; [|discriminate].
      apply (f_equal (fmap v_data)) in Hv. simpl in Hv.
      injection Hv as Hv. cbn [view v_data]. rewrite <- Hv, Hd. simpl.
      destruct (baseData this); reflexivity.
    - apply (f_equal (fmap v_data)) in Hv. simpl in Hv.
      injection Hv as Hv. cbn [view v_data]. rewrite <- Hv, Hd. simpl.
      destruct (baseData this); reflexivity. }
  simpl in Hvd. destruct (baseData this) as [bl|] eqn:Hb; simpl in Hvd.
  - destruct (data p') as [[l|t]|] eqn:Hd'; simpl in Hvd; try discriminate.
    injection Hvd as Hvd. exists l. split; [reflexivity | exact Hvd].
  - destruct (data p') as [[l|t]|] eqn:Hd'; simpl in Hvd; try discriminate.
    injection Hvd as ->. reflexivity.
Qed.

End client_facts.

Lemma demo_setup_eq :
  setupInstance demo_agent (newHttpsService {| HTTPS_DEFAULT_TIMEOUT := 5000 |})
    demo_options demo_world
  = (demo_service, snd (fst demo_setup), demo_ready).
Proof. reflexivity. Qed.

Lemma tenant_setup_eq :
  setupInstance demo_agent (newHttpsService {| HTTPS_DEFAULT_TIMEOUT := 5000 |})
    {| opt_defaultValidator := None; opt_defaultReturnType := Some FULL;
       opt_defaultTimeout := Some 0; opt_baseUrl := Some "https://api.test";
       opt_baseData := Some (fst tenant_base); opt_baseHeaders := None;
       opt_randomizeUserAgent := true; opt_ignoreHttpsErrors := false |}
    (snd tenant_base)
  = (tenant_service, snd (fst tenant_setup), tenant_ready).
Proof. reflexivity. Qed.

Lemma tenant_closed : closed tenant_ready tenant_service text_post.
Proof.
  repeat split; simpl; try exact I;
    apply elem_of_dom; eexists; vm_compute; reflexivity.
Qed.

Lemma response_is_judged_then_shaped_witness :
  exists c,
    request demo_qs demo_race tenant_service (demo_get "/users") tenant_ready
      = Some c
    /\ outcome c
       = ReturnsResponse
           {| status := 200; res_headers := ∅; res_data := VStr "ok" |}.
Proof.
  destruct (request demo_qs demo_race tenant_service (demo_get "/users")
              tenant_ready) as [c|] eqn:H.
  2: { vm_compute in H. discriminate H. }
  exists c. split; [reflexivity|].
  assert (exists h, sent c = [h]
            /\ demo_race h (after c)
               = Responded {| status := 200; res_headers := ∅;
                              res_data := VStr "ok" |}) as (h & Hs & Hr).
  { pose proof H as H'. vm_compute in H'. injection H' as <-.
    eexists. split; [reflexivity|]. vm_compute. reflexivity. }
  destruct (response_is_judged_then_shaped demo_agent demo_qs demo_race
              _ _ _ _ _ _ _ _ c h _ tenant_setup_eq H Hs Hr)
    as (inst & _ & ->).
  reflexivity.
Defined.

Lemma timeout_precedence_witness :
  exists c h,
    request demo_qs demo_race tenant_service text_post tenant_ready = Some c
    /\ timeout (descriptor c) = Some 5000
    /\ sent c = [h] /\ timeout h = Some 5000.
Proof.
  destruct (request demo_qs demo_race tenant_service text_post tenant_ready)
    as [c|] eqn:H.
  2: { vm_compute in H. discriminate H. }
  destruct (timeout_precedence demo_agent demo_qs demo_race
              _ _ _ _ _ _ _ _ c tenant_setup_eq H) as (Hd & h & Hs & Hh).
  exists c, h. split; [reflexivity|]. split; [exact Hd|].
  split; [exact Hs | exact Hh].
Defined.

Lemma request_keeps_objects_witness :
  exists c,
    request demo_qs demo_race demo_service demo_signup demo_signup_world
      = Some c
    /\ rng (after c) = rng demo_signup_world
    /\ heap (after c) !! fst demo_json
       = Some ({["content-type" := VStr "application/json"]} : Obj).
Proof.
  destruct (request demo_qs demo_race demo_service demo_signup
              demo_signup_world) as [c|] eqn:H.
  2: { vm_compute in H. discriminate H. }
  destruct (request_keeps_objects demo_qs demo_race demo_service demo_signup
              demo_signup_world c HttpsSpec.demo_signup_closed H)
    as (Hrng & Hkeep).
  exists c. split; [reflexivity|]. split; [exact Hrng|].
  rewrite Hkeep.
  - vm_compute. reflexivity.
  - apply elem_of_dom. eexists. vm_compute. reflexivity.
Defined.

Lemma reused_descriptor_is_composed_again_witness :
  exists c c' h',
    request demo_qs demo_race demo_service (demo_get "/users") demo_ready
      = Some c
    /\ request demo_qs demo_race demo_service (descriptor c) (after c)
       = Some c'
    /\ sent c' = [h']
    /\ url h' = "https://api.testhttps://api.test/users".
Proof.
  destruct (request demo_qs demo_race demo_service (demo_get "/users")
              demo_ready) as [c|] eqn:H.
  2: { vm_compute in H. discriminate H. }
  destruct (request demo_qs demo_race demo_service (descriptor c) (after c))
    as [c'|] eqn:H'.
  2: { pose proof H as Hc. vm_compute in Hc. injection Hc as <-.
       vm_compute in H'. discriminate H'. }
  destruct (reused_descriptor_is_composed_again demo_qs demo_race
              demo_service _ "https://api.test" (demo_get "/users")
              demo_ready c c' eq_refl eq_refl H H')
    as (h & h' & _ & Hs' & _ & _ & _ & Hu).
  exists c, c', h'. split; [reflexivity|]. split; [exact H'|].
  split; [exact Hs'|]. exact (Hu eq_refl).
Defined.

Lemma setups_share_base_headers_witness :
  baseHeaders demo_service = opt_baseHeaders (snd (fst demo_setup))
  /\ baseHeaders
       (fst (fst (setupInstance demo_agent
                    (newHttpsService {| HTTPS_DEFAULT_TIMEOUT := 100 |})
                    (snd (fst demo_setup)) demo_ready)))
     = baseHeaders demo_service
  /\ spread_ref demo_ready (baseHeaders demo_service) !! "user-agent"
     = Some (VStr "agent/7")
  /\ spread_ref
       (snd (setupInstance demo_agent
               (newHttpsService {| HTTPS_DEFAULT_TIMEOUT := 100 |})
               (snd (fst demo_setup)) demo_ready))
       (baseHeaders demo_service) !! "user-agent"
     = Some (VStr "agent/8").
Proof.
  apply (setups_share_base_headers demo_agent
           (newHttpsService {| HTTPS_DEFAULT_TIMEOUT := 5000 |})
           (newHttpsService {| HTTPS_DEFAULT_TIMEOUT := 100 |})
           demo_options demo_world demo_service (snd (fst demo_setup))
           demo_ready
           (fst (fst (setupInstance demo_agent
                        (newHttpsService {| HTTPS_DEFAULT_TIMEOUT := 100 |})
                        (snd (fst demo_setup)) demo_ready)))
           (snd (fst (setupInstance demo_agent
                        (newHttpsService {| HTTPS_DEFAULT_TIMEOUT := 100 |})
                        (snd (fst demo_setup)) demo_ready)))
           (snd (setupInstance demo_agent
                   (newHttpsService {| HTTPS_DEFAULT_TIMEOUT := 100 |})
                   (snd (fst demo_setup)) demo_ready))).
  - reflexivity.
  - reflexivity.
  - reflexivity.
Defined.

Lemma cancelled_iff_timer_first_witness :
  exists c,
    request demo_qs demo_race demo_service (demo_get "/slow") demo_ready
      = Some c
    /\ cancelToken (descriptor c) = Some {| cancelled := true |}.
Proof.
  destruct (request demo_qs demo_race demo_service (demo_get "/slow")
              demo_ready) as [c|] eqn:H.
  2: { vm_compute in H. discriminate H. }
  exists c. split; [reflexivity|].
  destruct (cancelled_iff_timer_first demo_qs demo_race demo_service _
              (demo_get "/slow") demo_ready c eq_refl H)
    as (h & Hs & [_ Hcancel] & _).
  apply Hcancel.
  pose proof H as Hc. vm_compute in Hc. injection Hc as <-.
  injection Hs as <-. vm_compute. reflexivity.
Defined.

Lemma text_body_is_spread_witness :
  exists p' w' l,
    transformParams demo_qs tenant_service text_post tenant_ready
      = Some (p', w')
    /\ data p' = Some (BObj l)
    /\ deref w' l
       = {["0" := VStr "h"; "1" := VStr "i"; "tenant" := VStr "acme"]}.
Proof.
  destruct (transformParams demo_qs tenant_service text_post tenant_ready)
    as [[p' w']|] eqn:H.
  2: { vm_compute in H. discriminate H. }
  destruct (text_body_is_spread demo_qs tenant_service text_post tenant_ready
              w' p' "h" "i" tenant_closed eq_refl eq_refl eq_refl H)
    as (l & Hd & Hl).
  exists p', w', l. split; [reflexivity|]. split; [exact Hd|].
  rewrite Hl. vm_compute. reflexivity.
Defined.

End HttpsMore.

(** ** The client's address *)

Module ClientIpSpec.
Import Loader ClientIp.

Lemma upto_semicolon_sound s t :
  upto_semicolon s = Some t ->
  exists post, s = t +:+ ";" +:+ post
               /\ one_line t = true /\ includes ";" t = false.
Proof.
  revert t. induction s as [|d s IH]; intros t; simpl; [discriminate|].
  destruct (Ascii.eqb d ";") eqn:Hd.
  - apply Ascii.eqb_eq in Hd as ->. intros [= <-]. exists s.
    repeat split; reflexivity.
  - destruct (line_terminator d) eqn:Hl; [discriminate|].
    destruct (upto_semicolon s) as [t'|]; [|discriminate].
    intros [= <-]. destruct (IH t' eq_refl) as (post & -> & H1 & H2).
    exists post. split; [reflexivity|]. split.
    + simpl. rewrite Hl. exact H1.
    + rewrite includes_cons, H2, orb_false_r.
      cbn [starts_with]. rewrite Ascii.eqb_sym, Hd. reflexivity.
Qed.

Lemma upto_semicolon_complete t post :
  one_line t = true -> exists t', upto_semicolon (t +:+ ";" +:+ post) = Some t'.
Proof.
  induction t as [|d t IH]; simpl; intros H.
  - eexists. reflexivity.
  - apply andb_true_iff in H as [Hd Ht]. apply negb_true_iff in Hd.
    destruct (Ascii.eqb d ";"); [eexists; reflexivity|].
    rewrite Hd. destruct (IH Ht) as [t' ->]. eexists. reflexivity.
Qed.

Lemma group_sound s ip :
  group_then_semicolon s = Some ip ->
  exists c t post,
    ip = String c t /\ s = ip +:+ ";" +:+ post
    /\ one_line ip = true /\ includes ";" t = false.
Proof.
  destruct s as [|c s]; simpl; [discriminate|].
  destruct (line_terminator c) eqn:Hl; [discriminate|].
  destruct (upto_semicolon s) as [t|] eqn:Hu; [|discriminate].
  intros [= <-]. destruct (upto_semicolon_sound s t Hu) as (post & -> & H1 & H2).
  exists c, t, post. split; [reflexivity|]. split; [reflexivity|].
  split; [|exact H2]. simpl. rewrite Hl. exact H1.
Qed.

Lemma for_after_gap_eq s :
  for_after_gap s =
    let longer :=
      match s with
      | EmptyString => None
      | String d s' => if line_terminator d then None else for_after_gap s'
      end in
    if starts_with "for=" s then
      match group_then_semicolon (string_drop 4 s) with
      | Some ip => Some ip
      | None => longer
      end
    else longer.
Proof. destruct s; reflexivity. Qed.

Lemma forwardedIpRegex_exec_eq s :
  forwardedIpRegex_exec s =
    let later :=
      match s with
      | EmptyString => None
      | String _ s' => forwardedIpRegex_exec s'
      end in
    if starts_with "by" s then
      match gap_then_for (string_drop 2 s) with
      | Some ip => Some ip
      | None => later
      end
    else later.
Proof. destruct s; reflexivity. Qed.

Lemma for_after_gap_sound s ip :
  for_after_gap s = Some ip ->
  exists mid rest,
    s = mid +:+ "for=" +:+ rest /\ one_line mid = true
    /\ group_then_semicolon rest = Some ip.
Proof.
  induction s as [|d s IH].
  - simpl. discriminate.
  - assert ((if line_terminator d then None else for_after_gap s) = Some ip ->
            exists mid rest,
              String d s = mid +:+ "for=" +:+ rest /\ one_line mid = true
              /\ group_then_semicolon rest = Some ip) as Hlonger.
    { destruct (line_terminator d) eqn:Hl; [discriminate|]. intros H.
      destruct (IH H) as (mid & rest & -> & Hm & Hg).
      exists (String d mid), rest. split; [reflexivity|].
      split; [|exact Hg]. simpl. rewrite Hl. exact Hm. }
    rewrite for_after_gap_eq. cbv zeta.
    destruct (starts_with "for=" (String d s)) eqn:Hs; [|exact Hlonger].
    destruct (group_then_semicolon (string_drop 4 (String d s))) as [ip'|] eqn:Hg;
      [|exact Hlonger].
    intros [= <-]. apply starts_with_inv in Hs as [rest Hs].
    exists "", rest. split; [exact Hs|]. split; [reflexivity|].
    rewrite Hs in Hg. exact Hg.
Qed.

Lemma for_after_gap_complete mid rest ip :
  one_line mid = true ->
  group_then_semicolon rest = Some ip ->
  exists ip', for_after_gap (mid +:+ "for=" +:+ rest) = Some ip'.
Proof.
  intros Hm Hg. induction mid as [|d mid IH].
  - exists ip. change ("" +:+ "for=" +:+ rest) with ("for=" +:+ rest).
    rewrite for_after_gap_eq. cbv zeta.
    rewrite (starts_with_app "for=" rest).
    change (string_drop 4 ("for=" +:+ rest)) with rest. rewrite Hg.
    reflexivity.
  - simpl in Hm. apply andb_true_iff in Hm as [Hd Hm].
    apply negb_true_iff in Hd. destruct (IH Hm) as [ip' Hip].
    change (String d mid +:+ "for=" +:+ rest)
      with (String d (mid +:+ "for=" +:+ rest)).
    rewrite for_after_gap_eq. cbv zeta. rewrite Hd, Hip.
    destruct (starts_with "for=" _); [|eexists; reflexivity].
    destruct (group_then_semicolon (string_drop _ _)); eexists; reflexivity.
Qed.

Lemma exec_shape s ip :
  forwardedIpRegex_exec s = Some ip ->
  exists pre mid c t post,
    s = pre +:+ "by" +:+ mid +:+ "for=" +:+ ip +:+ ";" +:+ post
    /\ ip = String c t
    /\ mid <> "" /\ one_line mid = true /\ one_line ip = true
    /\ includes ";" t = false.
Proof.
  induction s as [|a s IH].
  - simpl. discriminate.
  - assert (forwardedIpRegex_exec s = Some ip ->
            exists pre mid c t post,
              String a s = pre +:+ "by" +:+ mid +:+ "for=" +:+ ip +:+ ";" +:+ post
              /\ ip = String c t
              /\ mid <> "" /\ one_line mid = true /\ one_line ip = true
              /\ includes ";" t = false) as Hlater.
    { intros H. destruct (IH H) as (pre & mid & c & t & post & -> & Hrest).
      exists (String a pre), mid, c, t, post. split; [reflexivity | exact Hrest]. }
    rewrite forwardedIpRegex_exec_eq. cbv zeta.
    destruct (starts_with "by" (String a s)) eqn:Hby; [|exact Hlater].
    destruct (gap_then_for (string_drop 2 (String a s))) as [ip'|] eqn:Hgap;
      [|exact Hlater].
    intros [= <-]. apply starts_with_inv in Hby as [rest Hby].
    rewrite Hby in Hgap |- *.
    change (string_drop 2 ("by" +:+ rest)) with rest in Hgap.
    unfold gap_then_for in Hgap. destruct rest as [|g rest]; [discriminate|].
    destruct (line_terminator g) eqn:Hg; [discriminate|].
    destruct (for_after_gap_sound rest ip' Hgap) as (mid & tail & -> & Hm & Hgr).
    destruct (group_sound tail ip' Hgr) as (c & t & post & Hip & -> & Hl & Hsc).
    exists "", (String g mid), c, t, post.
    split; [reflexivity|]. split; [exact Hip|]. split; [discriminate|].
    split; [simpl; rewrite Hg; exact Hm|]. split; [exact Hl | exact Hsc].
Qed.

(** X25.  [getClientIp] gives what the request itself gives unless the
    [forwarded] header reads: anything, [by], one character or more,
    [for=], an address, [;], anything.  It then gives that address, which
    is not empty and has no [;] after its first character; neither the
    address nor what stands between [by] and [for=] has a line break. *)
Theorem forwarded_ip_shape forwarded requestIp :
  getClientIp forwarded requestIp = requestIp
  \/ exists pre mid c t post,
       forwarded
       = Some (pre +:+ "by" +:+ mid +:+ "for=" +:+ String c t +:+ ";" +:+ post)
       /\ getClientIp forwarded requestIp = Some (String c t)
       /\ mid <> "" /\ one_line mid = true /\ one_line (String c t) = true
       /\ includes ";" t = false.
Proof.
  unfold getClientIp. destruct (truthy_str forwarded) eqn:Ht.
  - destruct forwarded as [s|]; [|discriminate]. simpl default.
    destruct (forwardedIpRegex_exec s) as [ip|] eqn:He.
    + right. destruct (exec_shape s ip He)
        as (pre & mid & c & t & post & -> & -> & Hm & Hl & Hi & Hs).
      exists pre, mid, c, t, post. repeat split; assumption.
    + left. reflexivity.
  - left. reflexivity.
Qed.

(** X26.  Conversely, a [forwarded] header that reads so, with an
    address and a stretch between [by] and [for=] that are not empty and
    have no line break, always gives [getClientIp] an address, whatever
    the request itself would give; the address is the one of the
    leftmost such reading. *)
Theorem forwarded_ip_found pre mid ip post requestIp :
  mid <> "" -> ip <> "" ->
  one_line mid = true -> one_line ip = true ->
  exists ip',
    forwardedIpRegex_exec
      (pre +:+ "by" +:+ mid +:+ "for=" +:+ ip +:+ ";" +:+ post) = Some ip'
    /\ getClientIp
         (Some (pre +:+ "by" +:+ mid +:+ "for=" +:+ ip +:+ ";" +:+ post))
         requestIp = Some ip'.
Proof.
  intros Hmid Hip Hm Hl.
  assert (exists ip',
            forwardedIpRegex_exec
              (pre +:+ "by" +:+ mid +:+ "for=" +:+ ip +:+ ";" +:+ post)
            = Some ip') as [ip' Hex].
  { assert (exists r, gap_then_for (mid +:+ "for=" +:+ ip +:+ ";" +:+ post)
                      = Some r) as [r Hr].
    { destruct mid as [|g mid]; [congruence|].
      simpl in Hm. apply andb_true_iff in Hm as [Hg Hm].
      apply negb_true_iff in Hg.
      destruct ip as [|c t]; [congruence|].
      simpl in Hl. apply andb_true_iff in Hl as [Hc Hl].
      apply negb_true_iff in Hc.
      destruct (upto_semicolon_complete t post Hl) as [t' Ht'].
      assert (group_then_semicolon (String c t +:+ ";" +:+ post)
              = Some (String c t')) as Hgr.
      { change (String c t +:+ ";" +:+ post)
          with (String c (t +:+ ";" +:+ post)).
        unfold group_then_semicolon. rewrite Hc, Ht'. reflexivity. }
      destruct (for_after_gap_complete mid _ _ Hm Hgr) as [r Hr].
      exists r.
      change (String g mid +:+ "for=" +:+ String c t +:+ ";" +:+ post)
        with (String g (mid +:+ "for=" +:+ String c t +:+ ";" +:+ post)).
      unfold gap_then_for. rewrite Hg. exact Hr. }
    induction pre as [|a pre IH].
    - exists r.
      change ("" +:+ "by" +:+ mid +:+ "for=" +:+ ip +:+ ";" +:+ post)
        with ("by" +:+ (mid +:+ "for=" +:+ ip +:+ ";" +:+ post)).
      rewrite forwardedIpRegex_exec_eq. cbv zeta. rewrite starts_with_app.
      change (string_drop 2 ("by" +:+ (mid +:+ "for=" +:+ ip +:+ ";" +:+ post)))
        with (mid +:+ "for=" +:+ ip +:+ ";" +:+ post).
      rewrite Hr. reflexivity.
    - destruct IH as [ip' Hip'].
      change (String a pre +:+ "by" +:+ mid +:+ "for=" +:+ ip +:+ ";" +:+ post)
        with (String a (pre +:+ "by" +:+ mid +:+ "for=" +:+ ip +:+ ";" +:+ post)).
      rewrite forwardedIpRegex_exec_eq. cbv zeta. rewrite Hip'.
      destruct (starts_with "by" _); [|eexists; reflexivity].
      destruct (gap_then_for (string_drop _ _)); eexists; reflexivity. }
  exists ip'. split; [exact Hex|].
  unfold getClientIp.
  assert (truthy_str
            (Some (pre +:+ "by" +:+ mid +:+ "for=" +:+ ip +:+ ";" +:+ post))
          = true) as ->.
  { destruct pre; reflexivity. }
  simpl default. rewrite Hex. reflexivity.
Qed.

Lemma forwarded_ip_found_witness :
  exists ip',
    forwardedIpRegex_exec
      ("" +:+ "by" +:+ "=203.0.113.43;" +:+ "for=" +:+ "198.51.100.17"
       +:+ ";" +:+ "host=example.com") = Some ip'
    /\ getClientIp
         (Some ("" +:+ "by" +:+ "=203.0.113.43;" +:+ "for=" +:+ "198.51.100.17"
                +:+ ";" +:+ "host=example.com"))
         (Some "10.0.0.1") = Some ip'.
Proof.
  apply (forwarded_ip_found "" "=203.0.113.43;" "198.51.100.17"
           "host=example.com" (Some "10.0.0.1")).
  - discriminate.
  - discriminate.
  - reflexivity.
  - reflexivity.
Defined.

Example forwarded_examples :
  getClientIp (Some "by=203.0.113.43;for=198.51.100.17;host=example.com")
    (Some "10.0.0.1") = Some "198.51.100.17"
  /\ getClientIp (Some "for=198.51.100.17;by=203.0.113.43") (Some "10.0.0.1")
     = Some "10.0.0.1"
  /\ getClientIp (Some "for=198.51.100.17") (Some "10.0.0.1")
     = Some "10.0.0.1".
Proof. repeat split; reflexivity. Qed.

End ClientIpSpec.
